(** * yaff.sampling.opt: the BFGS trust-region optimizer and the CG adapter

    A shallow embedding of [src/yaff/sampling/opt.py].

    Numbers.  The program computes with numpy float64 arrays.  They are
    idealised here as real numbers ([R]), so that [1.2], [0.5], [1.1] and
    [1e-5] are the exact decimals and no rounding takes place.  The one
    place where the program can divide by zero (the regularised step of
    [make_step], when an eigenvalue and the ridge are both zero) keeps
    numpy's behaviour: the quotient is a non-finite entry (nan or inf), no
    exception is raised, and every comparison [radius < trust_radius] with
    a non-finite radius is False.

    Arrays.  A vector is a [list R], a matrix the list of its rows.  The
    reductions [.max()] and [.min()] raise [ValueError] on an empty array,
    as numpy does.  Vector arguments are taken to have the dimension of
    the optimizer (numpy raises on other shapes); the theorems that depend
    on it say so in their hypotheses.

    Loops.  The two [while True] loops of [make_step] are run with fuel:
    [None] means that the fuel ran out. *)

From Stdlib Require Import Reals Lra Lia List Bool Arith.
From Stdlib Require Ascii.
Import ListNotations.
Open Scope R_scope.

(** ** Exceptions *)

Inductive exn : Type := ValueError.

Inductive outcome (A : Type) : Type :=
| Ret (a : A)
| Raise (e : exn).
Arguments Ret {A} a.
Arguments Raise {A} e.

(** ** Comparisons of numbers *)

Definition Rltb (a b : R) : bool := if Rlt_dec a b then true else false.
Definition Rleb (a b : R) : bool := if Rle_dec a b then true else false.
Definition Reqb (a b : R) : bool := if Req_dec_T a b then true else false.

(** ** numpy arrays *)

Abbreviation vec := (list R).
Abbreviation matrix := (list (list R)).

Fixpoint map2 {A B C : Type} (f : A -> B -> C) (u : list A) (v : list B)
  : list C :=
  match u, v with
  | a :: u', b :: v' => f a b :: map2 f u' v'
  | _, _ => []
  end.

Definition vsum (v : vec) : R := fold_right Rplus 0 v.

(** [np.dot(u, v)] for two vectors. *)
Definition dot (u v : vec) : R := vsum (map2 Rmult u v).

(** [np.dot(M, v)] for a matrix and a vector. *)
Definition mv (M : matrix) (v : vec) : vec := map (fun row => dot row v) M.

(** [np.linalg.norm(v)] *)
Definition norm (v : vec) : R := sqrt (dot v v).

Definition vadd (u v : vec) : vec := map2 Rplus u v.
Definition vsub (u v : vec) : vec := map2 Rminus u v.
Definition vopp (v : vec) : vec := map Ropp v.
Definition vabs (v : vec) : vec := map Rabs v.

(** [np.outer(u, v)] *)
Definition outer (u v : vec) : matrix :=
  map (fun a => map (fun b => a * b) v) u.

Definition madd (A B : matrix) : matrix := map2 vadd A B.
Definition msub (A B : matrix) : matrix := map2 vsub A B.

(** [M/d] for a matrix and a scalar. *)
Definition mdiv (M : matrix) (d : R) : matrix :=
  map (map (fun a => a / d)) M.

(** All entries of [abs(M)], row after row. *)
Definition mabs_entries (M : matrix) : vec := flat_map vabs M.

(** [a.max()] and [a.min()]: [None] stands for the [ValueError] that numpy
    raises on an empty array. *)
Definition amax (l : vec) : option R :=
  match l with
  | [] => None
  | a :: t => Some (fold_left Rmax t a)
  end.

Definition amin (l : vec) : option R :=
  match l with
  | [] => None
  | a :: t => Some (fold_left Rmin t a)
  end.

Definition entry (M : matrix) (i j : nat) : R := nth j (nth i M []) 0.

Definition ncols (M : matrix) : nat :=
  match M with
  | [] => 0%nat
  | r :: _ => length r
  end.

(** [M.T] *)
Definition transpose (M : matrix) : matrix :=
  map (fun j => map (fun row => nth j row 0) M) (seq 0 (ncols M)).

(** [np.identity(n, float)] *)
Definition identity (n : nat) : matrix :=
  map (fun i => map (fun j => if Nat.eqb i j then 1 else 0) (seq 0 n))
      (seq 0 n).

Definition square (n : nat) (M : matrix) : Prop :=
  length M = n /\ Forall (fun row => length row = n) M.

(** [H == H.T] *)
Definition symmetric (M : matrix) : Prop := transpose M = M.

(** [m] is the largest (smallest) element of [l]. *)
Definition is_max (m : R) (l : vec) : Prop :=
  In m l /\ Forall (fun a => a <= m) l.

Definition is_min (m : R) (l : vec) : Prop :=
  In m l /\ Forall (fun a => m <= a) l.

(** ** BFGSHessianModel *)

Module BFGSHessianModel.

(** [__init__]: [self.hessian = np.identity(size, float)] *)
Definition init (size : nat) : matrix := identity size.

(** [update(dx, dg)].  The result is the matrix stored in [self.hessian]
    when the call returns; [Raise e] is an exception that leaves
    [self.hessian] as it was (every raise comes before the first
    assignment). *)
Definition update (hessian : matrix) (dx dg : vec) : outcome matrix :=
  let tmp := mv hessian dx in
  match amax (mabs_entries hessian) with
  | None => Raise ValueError
  | Some hmax =>
    let denom1 := dot dx tmp in
    match amax (vabs tmp) with
    | None => Raise ValueError
    | Some tmpmax =>
      if Rleb (hmax * denom1) (1e-5 * tmpmax) then Ret hessian
      else
        let denom2 := dot dg dx in
        match amax (vabs dg) with
        | None => Raise ValueError
        | Some dgmax =>
          if Rleb (hmax * denom2) (1e-5 * dgmax) then Ret hessian
          else
            Ret (madd (msub hessian (mdiv (outer tmp tmp) denom1))
                      (mdiv (outer dg dg) denom2))
        end
    end
  end.

(** The matrix stored after the call. *)
Definition stored (hessian : matrix) (r : outcome matrix) : matrix :=
  match r with
  | Ret h => h
  | Raise _ => hessian
  end.

(** The matrix stored after a sequence of calls of [update] on a model
    that starts from [hessian]. *)
Definition updates (hessian : matrix) (steps : list (vec * vec)) : matrix :=
  fold_left (fun h step => stored h (update h (fst step) (snd step)))
            steps hessian.

(** The entry [(i, j)] of [H - (Hdx (x) Hdx)/denom1 + (dg (x) dg)/denom2],
    written out as the secant correction is specified. *)
Definition secant_entry (hessian : matrix) (dx dg : vec) (i j : nat) : R :=
  let Hdx := mv hessian dx in
  entry hessian i j
  - nth i Hdx 0 * nth j Hdx 0 / dot dx Hdx
  + nth i dg 0 * nth j dg 0 / dot dg dx.

(** [get_spectrum] is [np.linalg.eigh], which is not part of the
    program: the optimizer below takes it as a parameter. *)

End BFGSHessianModel.

(** ** The log

    [yaff.log.log] is a global object; only its level is read here.
    Messages written to the screen are not part of the model, except the
    warning of [CGOptimizer.propagate], which is recorded in [calls]. *)

Module ScreenLog.
Definition silent : nat := 0.
Definition warning : nat := 1.
Definition low : nat := 2.
Definition medium : nat := 3.
Definition high : nat := 4.
Definition debug : nat := 5.

Definition do_warning (level : nat) : bool := Nat.leb warning level.
End ScreenLog.

(** Calls made to the collaborators of the optimizers, in the order in
    which they are made (a ghost field of the state). *)
Inductive call : Type :=
  | CheckConvergence      (* self.dof.check_convergence() *)
  | IterativeInitialize   (* Iterative.initialize(self) *)
  | IterativePropagate    (* Iterative.propagate(self) *)
  | MinimizerPropagate    (* self.minimizer.propagate() *)
  | LogWarn.              (* log.warn(...) *)

(** ** BaseOptimizer *)

Module BaseOptimizer.
Section BaseOptimizer.

(** The DOF object and the driver ([yaff.sampling.iterative.Iterative])
    are collaborators whose code is not part of this file. *)
Variable DOF : Type.
Variable Iterative : Type.

(** [dof.fun(x, True)] and [dof.fun(x, False)] *)
Variable dof_fun : DOF -> vec -> DOF * (R * vec).
Variable dof_fun_energy : DOF -> vec -> DOF * R.
Variable dof_check_convergence : DOF -> DOF.
Variable dof_converged : DOF -> bool.

Record state : Type := mk {
  dof : DOF;
  epot : option R;            (* unset until the first call of [fun] *)
  iterative : Iterative;      (* counter, hooks and recorded state items *)
  calls : list call
}.

Variable Iterative_initialize : state -> state.
Variable Iterative_propagate : state -> state.

Definition record (c : call) (s : state) : state :=
  mk (dof s) (epot s) (iterative s) (calls s ++ [c]).

(** [fun(x, do_gradient=True)] *)
Definition fun_ (s : state) (x : vec) : state * (R * vec) :=
  let '(d, (e, gx)) := dof_fun (dof s) x in
  (mk d (Some e) (iterative s) (calls s), (e, gx)).

(** [fun(x, do_gradient=False)] *)
Definition fun_energy (s : state) (x : vec) : state * R :=
  let '(d, e) := dof_fun_energy (dof s) x in
  (mk d (Some e) (iterative s) (calls s), e).

Definition check_convergence (s : state) : state :=
  record CheckConvergence
    (mk (dof_check_convergence (dof s)) (epot s) (iterative s) (calls s)).

Definition initialize (s : state) : state :=
  Iterative_initialize (record IterativeInitialize (check_convergence s)).

Definition propagate (s : state) : state * bool :=
  let s' :=
    Iterative_propagate (record IterativePropagate (check_convergence s)) in
  (s', dof_converged (dof s')).

End BaseOptimizer.
End BaseOptimizer.

(** ** CGOptimizer *)

Module CGOptimizer.
Section CGOptimizer.

Variable DOF : Type.
Variable Iterative : Type.
Variable dof_check_convergence : DOF -> DOF.
Variable dof_converged : DOF -> bool.
Variable Iterative_propagate :
  BaseOptimizer.state DOF Iterative -> BaseOptimizer.state DOF Iterative.

(** [molmod.minimizer.Minimizer]: its [propagate] evaluates [self.fun]
    as it sees fit, so it acts on the state of the base class too, and
    returns the success flag; [Minimizer_x] reads its attribute [x]. *)
Variable Minimizer : Type.
Variable Minimizer_propagate :
  Minimizer -> BaseOptimizer.state DOF Iterative ->
  Minimizer * BaseOptimizer.state DOF Iterative * bool.
Variable Minimizer_x : Minimizer -> vec.

(** The level of the global [log]. *)
Variable log_level : nat.

Record state : Type := mk {
  base : BaseOptimizer.state DOF Iterative;
  minimizer : Minimizer;
  x : option vec              (* unset until the first call of [propagate] *)
}.

Definition propagate (s : state) : state * bool :=
  let '(m, b, success) :=
    Minimizer_propagate (minimizer s)
      (BaseOptimizer.record DOF Iterative MinimizerPropagate (base s)) in
  let x' := Some (Minimizer_x m) in
  if negb success then
    let b' :=
      if ScreenLog.do_warning log_level
      then BaseOptimizer.record DOF Iterative LogWarn b
      else b in
    (mk b' m x', true)
  else
    let '(b', r) :=
      BaseOptimizer.propagate DOF Iterative dof_check_convergence
        dof_converged Iterative_propagate b in
    (mk b' m x', r).

End CGOptimizer.
End CGOptimizer.

(** ** BFGSOptimizer *)

(** The elementwise quotient of two float arrays: a zero denominator
    gives a non-finite entry ([None]) and no exception. *)
Definition np_div (a b : R) : option R :=
  if Reqb b 0 then None else Some (a / b).

(** The entries of an array when all of them are finite. *)
Fixpoint all_finite (l : list (option R)) : option vec :=
  match l with
  | [] => Some []
  | Some a :: t =>
    match all_finite t with
    | Some t' => Some (a :: t')
    | None => None
    end
  | None :: _ => None
  end.

(** [a[a != 0.0]] *)
Definition nonzero (l : vec) : vec :=
  filter (fun a => negb (Reqb a 0)) l.

Inductive verdict : Type :=
  | Accept (x : vec) (f : R) (g : vec)
  | Reject.

Module BFGSOptimizer.
Section BFGSOptimizer.

Variable DOF : Type.
Variable Iterative : Type.
Variable dof_x0 : DOF -> vec.
Variable dof_fun : DOF -> vec -> DOF * (R * vec).
Variable dof_check_convergence : DOF -> DOF.
Variable dof_converged : DOF -> bool.
Variable Iterative_initialize :
  BaseOptimizer.state DOF Iterative -> BaseOptimizer.state DOF Iterative.
Variable Iterative_propagate :
  BaseOptimizer.state DOF Iterative -> BaseOptimizer.state DOF Iterative.

(** [np.linalg.eigh]: eigenvalues, and the matrix whose columns are the
    eigenvectors. *)
Variable eigh : matrix -> vec * matrix.

Record state : Type := mk {
  base : BaseOptimizer.state DOF Iterative;
  x_old : vec;
  f_old : R;
  g_old : vec;
  hessian : matrix;
  trust_radius : R;
  small_radius : R;
  x : vec;
  f : R;
  g : vec
}.

Definition set_base (b : BaseOptimizer.state DOF Iterative) (s : state)
  : state :=
  mk b (x_old s) (f_old s) (g_old s) (hessian s) (trust_radius s)
     (small_radius s) (x s) (f s) (g s).

Definition set_trust_radius (r : R) (s : state) : state :=
  mk (base s) (x_old s) (f_old s) (g_old s) (hessian s) r
     (small_radius s) (x s) (f s) (g s).

Definition set_xfg (x' : vec) (f' : R) (g' : vec) (s : state) : state :=
  mk (base s) (x_old s) (f_old s) (g_old s) (hessian s) (trust_radius s)
     (small_radius s) x' f' g'.

(** [same_model s s']: the states agree on every field but the base class
    (which holds the energy of the last evaluation) and the trust radius. *)
Definition same_model (s s' : state) : Prop :=
  x_old s' = x_old s /\ f_old s' = f_old s /\ g_old s' = g_old s /\
  hessian s' = hessian s /\ small_radius s' = small_radius s /\
  x s' = x s /\ f s' = f s /\ g s' = g s.

(** [tmp2 = tmp1*evals/(evals**2 + ridge**2)] *)
Definition eigen_step (tmp1 evals : vec) (ridge : R) : list (option R) :=
  map2 (fun p e => np_div (p * e) (e ^ 2 + ridge ^ 2)) tmp1 evals.

(** The growth of the ridge, at the end of the body of the inner loop:
    [abs(evals[evals!=0.0]).min()] raises on an empty selection. *)
Definition grow_ridge (evals : vec) (ridge : R) : outcome R :=
  if Reqb ridge 0 then
    match amin (vabs (nonzero evals)) with
    | Some r => Ret r
    | None => Raise ValueError
    end
  else Ret (ridge * 1.2).

(** The inner loop: increase the ridge until the step is smaller than
    the trust radius.  A non-finite [radius] is not smaller. *)
Fixpoint ridge_loop (fuel : nat) (tmp1 evals : vec) (trust ridge : R)
  : option (outcome (vec * R)) :=
  match fuel with
  | O => None
  | S k =>
    let grow :=
      match grow_ridge evals ridge with
      | Ret ridge' => ridge_loop k tmp1 evals trust ridge'
      | Raise e => Some (Raise e)
      end in
    match all_finite (eigen_step tmp1 evals ridge) with
    | Some tmp2 =>
      if Rltb (norm tmp2) trust then Some (Ret (tmp2, ridge)) else grow
    | None => grow
    end
  end.

(** One pass through the body of the outer loop: a trial step and its
    verdict, with the state and the ridge with which the loop goes on. *)
Definition trial (fuel : nat) (tmp1 evals : vec) (evecs : matrix)
           (s : state) (ridge : R)
  : option (outcome (verdict * state * R)) :=
  match ridge_loop fuel tmp1 evals (trust_radius s) ridge with
  | None => None
  | Some (Raise e) => Some (Raise e)
  | Some (Ret (tmp2, ridge')) =>
    let delta_x := mv evecs tmp2 in
    let x' := vadd (x_old s) delta_x in
    let '(b, (f', g')) :=
      BaseOptimizer.fun_ DOF Iterative dof_fun (base s) x' in
    let s' := set_base b s in
    let delta_f := f' - f_old s' in
    let delta_norm_g := norm g' - norm (g_old s') in
    if Rltb 0 delta_f
       || (Rltb (trust_radius s') (small_radius s')
           && Rltb delta_norm_g 0)
    then
      Some (Ret (Reject, set_trust_radius (trust_radius s' * 0.5) s', ridge'))
    else if Rltb 0 (dot delta_x g') then
      Some (Ret (Reject, set_trust_radius (trust_radius s' * 0.5) s', ridge'))
    else
      Some (Ret (Accept x' f' g',
                 set_trust_radius (trust_radius s' * 1.2) s', ridge'))
  end.

(** The outer loop: halve the trust radius until a trial is accepted. *)
Fixpoint trust_loop (fuel : nat) (tmp1 evals : vec) (evecs : matrix)
         (s : state) (ridge : R)
  : option (outcome (vec * R * vec * state)) :=
  match fuel with
  | O => None
  | S k =>
    match trial k tmp1 evals evecs s ridge with
    | None => None
    | Some (Raise e) => Some (Raise e)
    | Some (Ret (Accept x' f' g', s', _)) => Some (Ret (x', f', g', s'))
    | Some (Ret (Reject, s', ridge')) =>
      trust_loop k tmp1 evals evecs s' ridge'
    end
  end.

(** [rejected tmp1 evals evecs n c c']: [n] consecutive passes through the
    body of the outer loop, each of which rejects its trial, lead from the
    state and ridge [c] to the state and ridge [c']. *)
Inductive rejected (tmp1 evals : vec) (evecs : matrix)
  : nat -> state * R -> state * R -> Prop :=
| rejected_O c : rejected tmp1 evals evecs 0 c c
| rejected_S n k s ridge s1 ridge1 c :
    trial k tmp1 evals evecs s ridge = Some (Ret (Reject, s1, ridge1)) ->
    rejected tmp1 evals evecs n (s1, ridge1) c ->
    rejected tmp1 evals evecs (S n) (s, ridge) c.

(** The initial ridge parameter. *)
Definition initial_ridge (evals : vec) : outcome R :=
  match amin evals with
  | None => Raise ValueError
  | Some m => if Rleb m 0 then Ret (Rabs m * 1.1) else Ret 0
  end.

Definition make_step (fuel : nat) (s : state)
  : option (outcome (vec * R * vec * state)) :=
  let '(evals, evecs) := eigh (hessian s) in
  let tmp1 := vopp (mv (transpose evecs) (g_old s)) in
  match initial_ridge evals with
  | Raise e => Some (Raise e)
  | Ret ridge => trust_loop fuel tmp1 evals evecs s ridge
  end.

(** [__init__] followed by [initialize]: the fields [f_old], [g_old],
    [x], [f] and [g] do not exist in between.  The Hessian model starts
    as the identity and the trust radius as 1.0. *)
Definition initialize (fuel : nat) (b : BaseOptimizer.state DOF Iterative)
           (small : R) : option (outcome state) :=
  let x0 := dof_x0 (BaseOptimizer.dof DOF Iterative b) in
  let '(b1, (f0, g0)) := BaseOptimizer.fun_ DOF Iterative dof_fun b x0 in
  let s :=
    mk b1 x0 f0 g0 (BFGSHessianModel.init (length x0)) 1 small x0 f0 g0 in
  match make_step fuel s with
  | None => None
  | Some (Raise e) => Some (Raise e)
  | Some (Ret (x', f', g', s')) =>
    let s'' := set_xfg x' f' g' s' in
    Some (Ret (set_base
                 (BaseOptimizer.initialize DOF Iterative
                    dof_check_convergence Iterative_initialize (base s''))
                 s''))
  end.

(** [propagate].  The two assertions compare object identities; the
    arrays of the model are values, and [fun] is taken to return fresh
    ones, so they hold. *)
Definition propagate (fuel : nat) (s : state)
  : option (outcome (state * bool)) :=
  match BFGSHessianModel.update (hessian s) (vsub (x s) (x_old s))
                                (vsub (g s) (g_old s)) with
  | Raise e => Some (Raise e)
  | Ret h =>
    let s1 :=
      mk (base s) (x s) (f s) (g s) h (trust_radius s) (small_radius s)
         (x s) (f s) (g s) in
    match make_step fuel s1 with
    | None => None
    | Some (Raise e) => Some (Raise e)
    | Some (Ret (x', f', g', s2)) =>
      let s3 := set_xfg x' f' g' s2 in
      let '(b, r) :=
        BaseOptimizer.propagate DOF Iterative dof_check_convergence
          dof_converged Iterative_propagate (base s3) in
      Some (Ret (set_base b s3, r))
    end
  end.

End BFGSOptimizer.
End BFGSOptimizer.

Arguments BaseOptimizer.mk {DOF Iterative}.
Arguments BaseOptimizer.dof {DOF Iterative}.
Arguments BaseOptimizer.epot {DOF Iterative}.
Arguments BaseOptimizer.iterative {DOF Iterative}.
Arguments BaseOptimizer.calls {DOF Iterative}.
Arguments BaseOptimizer.record {DOF Iterative}.
Arguments BaseOptimizer.fun_ {DOF Iterative}.
Arguments BaseOptimizer.propagate {DOF Iterative}.
Arguments CGOptimizer.mk {DOF Iterative Minimizer}.
Arguments CGOptimizer.base {DOF Iterative Minimizer}.
Arguments CGOptimizer.minimizer {DOF Iterative Minimizer}.
Arguments CGOptimizer.x {DOF Iterative Minimizer}.
Arguments CGOptimizer.propagate {DOF Iterative}.
Arguments BFGSOptimizer.mk {DOF Iterative}.
Arguments BFGSOptimizer.base {DOF Iterative}.
Arguments BFGSOptimizer.x_old {DOF Iterative}.
Arguments BFGSOptimizer.f_old {DOF Iterative}.
Arguments BFGSOptimizer.g_old {DOF Iterative}.
Arguments BFGSOptimizer.hessian {DOF Iterative}.
Arguments BFGSOptimizer.trust_radius {DOF Iterative}.
Arguments BFGSOptimizer.small_radius {DOF Iterative}.
Arguments BFGSOptimizer.x {DOF Iterative}.
Arguments BFGSOptimizer.f {DOF Iterative}.
Arguments BFGSOptimizer.g {DOF Iterative}.
Arguments BFGSOptimizer.set_base {DOF Iterative}.
Arguments BFGSOptimizer.set_trust_radius {DOF Iterative}.
Arguments BFGSOptimizer.set_xfg {DOF Iterative}.
Arguments BFGSOptimizer.same_model {DOF Iterative}.
Arguments BFGSOptimizer.trial {DOF Iterative}.
Arguments BFGSOptimizer.trust_loop {DOF Iterative}.
Arguments BFGSOptimizer.rejected {DOF Iterative}.
Arguments BFGSOptimizer.make_step {DOF Iterative}.
Arguments BFGSOptimizer.propagate {DOF Iterative}.

(** ** Notions used in the statements *)


(** [M] is positive definite: [v.M.v > 0] for every vector [v] of dimension
    [n] that is not zero. *)
Definition positive_definite (n : nat) (M : matrix) : Prop :=
  forall v, length v = n -> (exists i, nth i v 0 <> 0) -> 0 < dot v (mv M v).

(** The state of a [BFGSOptimizer] of dimension [n] between two steps:
    vectors of dimension [n], a symmetric positive definite Hessian model
    and a positive trust radius. *)
Definition well_formed {DOF Iterative : Type} (n : nat)
           (s : BFGSOptimizer.state DOF Iterative) : Prop :=
  length (BFGSOptimizer.x_old s) = n /\
  length (BFGSOptimizer.g_old s) = n /\
  length (BFGSOptimizer.x s) = n /\
  length (BFGSOptimizer.g s) = n /\
  square n (BFGSOptimizer.hessian s) /\
  symmetric (BFGSOptimizer.hessian s) /\
  positive_definite n (BFGSOptimizer.hessian s) /\
  0 < BFGSOptimizer.trust_radius s.

(** [r] is the smallest [|e|] over the eigenvalues [e] that are not zero. *)
Definition smallest_nonzero_abs (r : R) (evals : vec) : Prop :=
  (exists e, In e evals /\ e <> 0 /\ r = Rabs e) /\
  (forall e, In e evals -> e <> 0 -> r <= Rabs e).

(** ** A problem in one dimension

    The Hessian model is a 1x1 matrix, whose spectrum is its entry with
    the eigenvector [1].  The energy is 0 with gradient -1/2 up to [x = 0],
    then -1, and jumps to 1 at [x = 1/2], so that the first trial step
    from [start] (the state built from [x0 = 0]) is rejected and the
    second is accepted. *)

Module Example.

Definition dof_fun (d : unit) (x : vec) : unit * (R * vec) :=
  match x with
  | [a] =>
    if Rleb (1/2) a then (d, (1, [0]))
    else if Rleb a 0 then (d, (0, [-1/2]))
    else (d, (-1, [0]))
  | _ => (d, (0, []))
  end.

Definition eigh (h : matrix) : vec * matrix :=
  match h with
  | [[a]] => ([a], [[1]])
  | _ => ([], [])
  end.

Definition base : BaseOptimizer.state unit unit :=
  BaseOptimizer.mk tt None tt [].

(** The optimizer built from [x0 = 0], when its first step is computed. *)
Definition start : BFGSOptimizer.state unit unit :=
  BFGSOptimizer.mk (BaseOptimizer.mk tt (Some 0) tt [])
    [0] 0 [-1/2] [[1]] 1 1e-5 [0] 0 [-1/2].


(** [start] after the rejection of the first trial, and after the
    acceptance of the second. *)
Definition halved : BFGSOptimizer.state unit unit :=
  BFGSOptimizer.mk (BaseOptimizer.mk tt (Some 1) tt [])
    [0] 0 [-1/2] [[1]] 0.5 1e-5 [0] 0 [-1/2].

Definition accepted : BFGSOptimizer.state unit unit :=
  BFGSOptimizer.mk (BaseOptimizer.mk tt (Some (-1)) tt [])
    [0] 0 [-1/2] [[1]] 0.6 1e-5 [0] 0 [-1/2].

(** The optimizer after [initialize]. *)
Definition initialized : BFGSOptimizer.state unit unit :=
  BFGSOptimizer.mk
    (BaseOptimizer.mk tt (Some (-1)) tt [CheckConvergence; IterativeInitialize])
    [0] 0 [-1/2] [[1]] 0.6 1e-5 [1/4] (-1) [0].

(** What [make_step] returns in [propagate] from [initialized]: the
    Hessian model has become 2, the step is zero and is accepted. *)
Definition propagated : BFGSOptimizer.state unit unit :=
  BFGSOptimizer.mk
    (BaseOptimizer.mk tt (Some (-1)) tt [CheckConvergence; IterativeInitialize])
    [1/4] (-1) [0] [[2]] 0.72 1e-5 [1/4] (-1) [0].

(** A line-search minimizer whose step fails: its state is its iterate. *)
Definition Minimizer_propagate (m : vec) (b : BaseOptimizer.state unit unit)
  : vec * BaseOptimizer.state unit unit * bool :=
  (vadd m [1], b, false).

Definition cg : CGOptimizer.state unit unit vec :=
  CGOptimizer.mk base [0] (Some [0]).

End Example.

(** ** yaff.log: the screen logger

    [ScreenLog] writes lines to a file; the file is the list of the
    things printed, oldest first.  The messages are byte strings
    ([list ascii]).  [print_header] prints the banner, the environment
    (user, machine, time) and the table of units; it is a parameter of
    [__call__], and [timer._start] is left out.  The loop of [__call__]
    runs with fuel. *)

Module Log.
Import Ascii.

Abbreviation str := (list ascii).

Inductive error : Type := RuntimeError | ValueError | IndexError.

Inductive result (A : Type) : Type :=
| Done (a : A)
| Fail (e : error).
Arguments Done {A} a.
Arguments Fail {A} e.

(** The screen parameters. *)
Definition margin : nat := 8.
Definition width : nat := 72.

Record state : Type := mk {
  _active : bool;
  _level : nat;
  prefix : str;
  _last_used_prefix : option str;
  stack : list str;
  add_newline : bool;
  _file : list str
}.

(** [__init__], on a file that holds [f] *)
Definition init (f : list str) : state :=
  mk false ScreenLog.medium (repeat " "%char (margin - 1)) None [] false f.

Definition set_prefix (p : str) (st : state) : state :=
  mk (_active st) (_level st) p (_last_used_prefix st) (stack st)
     (add_newline st) (_file st).

(** [print >> self._file, line] *)
Definition print (line : str) (st : state) : state :=
  mk (_active st) (_level st) (prefix st) (_last_used_prefix st) (stack st)
     (add_newline st) (_file st ++ [line]).

(** *** Methods of [str] *)

(** [s.find(c)]: [None] is -1. *)
Fixpoint find (c : ascii) (s : str) : option nat :=
  match s with
  | [] => None
  | a :: t =>
    if Ascii.eqb a c then Some 0%nat
    else match find c t with
         | Some i => Some (S i)
         | None => None
         end
  end.

(** [s.rfind(c, 0, stop)]: the last place of [c] in [s[0:stop]]. *)
Fixpoint rfind (c : ascii) (s : str) (stop : nat) : option nat :=
  match s, stop with
  | a :: t, S k =>
    match rfind c t k with
    | Some i => Some (S i)
    | None => if Ascii.eqb a c then Some 0%nat else None
    end
  | _, _ => None
  end.

(** The whitespace of [str.lstrip()]: space, tab, newline, vertical tab,
    form feed and carriage return. *)
Definition is_space (c : ascii) : bool :=
  Ascii.eqb c " " || Ascii.eqb c "009" || Ascii.eqb c "010"
  || Ascii.eqb c "011" || Ascii.eqb c "012" || Ascii.eqb c "013".

Fixpoint lstrip (s : str) : str :=
  match s with
  | [] => []
  | a :: t => if is_space a then lstrip t else s
  end.

(** [s.upper()], on the letters of ASCII *)
Definition upper_char (c : ascii) : ascii :=
  let n := nat_of_ascii c in
  if Nat.leb 97 n && Nat.leb n 122 then ascii_of_nat (n - 32) else c.

Definition upper (s : str) : str := map upper_char s.

(** [s.rjust(w, ' ')] *)
Definition rjust (w : nat) (s : str) : str :=
  repeat " "%char (w - length s) ++ s.

(** [' '.join(words)] *)
Fixpoint join (words : list str) : str :=
  match words with
  | [] => []
  | [w] => w
  | w :: ws => w ++ " "%char :: join ws
  end.

Definition str_eqb (s t : str) : bool :=
  if list_eq_dec ascii_dec s t then true else false.

(** *** [ScreenLog] *)

(** [set_level(level)], for an integer [level] *)
Definition set_level (level : Z) (st : state) : result state :=
  if (level <? Z.of_nat ScreenLog.silent)%Z
     || (level >? Z.of_nat ScreenLog.debug)%Z
  then Fail ValueError
  else Done (mk (_active st) (Z.to_nat level) (prefix st)
                (_last_used_prefix st) (stack st) (add_newline st)
                (_file st)).

(** The loop of [__call__] that breaks [rest] into lines of at most
    [width] characters and prints them; the result is the list of the
    lines printed. *)
Fixpoint break_lines (fuel : nat) (pfx : str) (width : nat) (lead : str)
         (first : bool) (rest : str) : option (list str) :=
  match fuel with
  | O => None
  | S k =>
    if Nat.ltb 0 (length rest) then
      let '(current, rest') :=
        if Nat.ltb width (length rest) then
          match rfind " " rest width with
          | None => (firstn width rest, skipn width rest)
          | Some pos => (firstn pos rest, lstrip (skipn pos rest))
          end
        else (rest, []) in
      let line := pfx ++ " "%char :: lead ++ current in
      let lead' := if first then repeat " "%char (length lead) else lead in
      match break_lines k pfx width lead' false rest' with
      | Some lines => Some (line :: lines)
      | None => None
      end
    else Some []
  end.

(** The alignment code: the text before the first ['&'], followed by a
    space, is the lead. *)
Definition split_lead (s : str) : str * str :=
  match find "&" s with
  | None => ([], s)
  | Some pos => (firstn pos s ++ [" "%char], skipn (pos + 1) s)
  end.

(** The lines that show the pieces [currents] of a message: the first
    after the lead, the others after blanks of the width of the lead (or
    all after [lead] when [first] is false). *)
Definition layout (pfx lead : str) (first : bool) (currents : list str)
  : list str :=
  match currents with
  | [] => []
  | c :: cs =>
    (pfx ++ " "%char :: lead ++ c)
    :: map (fun c' =>
              pfx ++ " "%char
              :: (if first then repeat " "%char (length lead) else lead)
              ++ c') cs
  end.

(** [__call__(words)], for the words of the message.  An exception loses the state: what was printed
    before it is not part of the result. *)
Definition call (print_header : state -> state) (fuel : nat) (st : state)
           (words : list str) : option (result state) :=
  let s := join words in
  if negb (ScreenLog.do_warning (_level st)) then Some (Fail RuntimeError)
  else
    let st1 :=
      if negb (_active st) then set_prefix (prefix st) (print_header st)
      else st in
    let st2 :=
      if add_newline st1
         && negb (match _last_used_prefix st1 with
                  | Some p => str_eqb (prefix st1) p
                  | None => false
                  end)
      then
        mk (_active st1) (_level st1) (prefix st1) (_last_used_prefix st1)
           (stack st1) false (_file st1 ++ [[]])
      else st1 in
    let '(lead, rest) := split_lead s in
    let w := (Z.of_nat width - Z.of_nat (length lead))%Z in
    if (w <? Z.of_nat width / 2)%Z then Some (Fail ValueError)
    else
      match break_lines fuel (prefix st2) (Z.to_nat w) lead true rest with
      | None => None
      | Some lines =>
        Some (Done (mk (_active st2) (_level st2) (prefix st2)
                       (Some (prefix st2)) (stack st2) (add_newline st2)
                       (_file st2 ++ lines)))
      end.

(** [warn(words)] *)
Definition warn (print_header : state -> state) (fuel : nat) (st : state)
           (words : list str) : option (result state) :=
  call print_header fuel st
       [["W"; "A"; "R"; "N"; "I"; "N"; "G"; "!"; "!"; "&"]%char ++ join words].

(** [hline(char)]: [char*self.width] for a string [char] *)
Definition hline (print_header : state -> state) (fuel : nat) (st : state)
           (char : str) : option (result state) :=
  call print_header fuel st [concat (repeat char width)].

(** [blank()] *)
Definition blank (st : state) : state := print [] st.

(** [_enter(prefix)] *)
Definition _enter (p : str) (st : state) : result state :=
  if Nat.ltb (margin - 1) (length p) then Fail ValueError
  else
    Done (mk (_active st) (_level st) (rjust (margin - 1) (upper p))
             (_last_used_prefix st) (stack st ++ [prefix st]) true
             (_file st)).

(** [_exit()]: [self.stack.pop(-1)] raises [IndexError] on an empty
    stack. *)
Definition _exit (st : state) : result state :=
  match stack st with
  | [] => Fail IndexError
  | _ :: _ =>
    Done (mk (_active st) (_level st) (last (stack st) [])
             (_last_used_prefix st) (removelast (stack st))
             (if _active st then true else add_newline st) (_file st))
  end.

(** [with log.section(prefix): body].  The body gives the state it
    reached and the exception it raised, if any; [_exit] runs in both
    cases ([finally]), and an exception of the body is raised again. *)
Definition section (p : str) (body : state -> state * option error)
           (st : state) : state * option error :=
  match _enter p st with
  | Fail e => (st, Some e)
  | Done st1 =>
    let '(st2, raised) := body st1 in
    match _exit st2 with
    | Fail e => (st2, Some e)
    | Done st3 => (st3, raised)
    end
  end.

End Log.

(** A log that is active, at the level [medium], with an empty file. *)

Module LogExample.
Import Ascii.

Definition active : Log.state :=
  Log.mk true ScreenLog.medium (repeat " "%char 7) None [] false [].

(** ['ab cd ef'] *)
Definition text : list ascii := ["a"; "b"; " "; "c"; "d"; " "; "e"; "f"]%char.

(** [active] after [log('ab cd ef')] *)
Definition written : Log.state :=
  Log.mk true ScreenLog.medium (repeat " "%char 7)
    (Some (repeat " "%char 7)) [] false
    [repeat " "%char 7 ++ " "%char :: text].

End LogExample.

(** ** yaff.pes.scaling: paths of bonds

    [system.neighs1] maps each atom to the set of the atoms bonded to it;
    it is a function to the list of these atoms, in the order in which
    the set is iterated.  A generator is the list of what it yields. *)

Module Scaling.

(** [iter_paths(system, ib, ie, nbond)], for [nbond >= 1].  (With
    [nbond = 0] the generator calls itself with -1, -2, ... and never
    reaches [nbond == 1]; this case is not part of the model and gives no
    path here.) *)
Fixpoint iter_paths (neighs1 : nat -> list nat) (ib ie nbond : nat)
  : list (list nat) :=
  match nbond with
  | O => []
  | S n =>
    match n with
    | O => if existsb (Nat.eqb ie) (neighs1 ib) then [[ib; ie]] else []
    | S _ =>
      flat_map
        (fun i1 =>
           map (cons ib)
               (filter (fun path => negb (existsb (Nat.eqb ib) path))
                       (iter_paths neighs1 i1 ie n)))
        (neighs1 ib)
    end
  end.

(** Every atom of [path] but the last is followed by one of its
    neighbours. *)
Fixpoint bonded (neighs1 : nat -> list nat) (path : list nat) : Prop :=
  match path with
  | a :: (b :: _) as rest => In b (neighs1 a) /\ bonded neighs1 rest
  | _ => True
  end.

(** [path] is a path of [nbond] bonds from [ib] to [ie] that visits no
    atom twice. *)
Definition simple_path (neighs1 : nat -> list nat) (ib ie nbond : nat)
           (path : list nat) : Prop :=
  length path = S nbond /\ hd_error path = Some ib /\ last path ib = ie /\
  bonded neighs1 path /\ NoDup path.

(** *** [Scalings]

    An entry of [stab] is a tuple [(a, b, scale, nbond)]. *)

Definition entry : Type := nat * nat * R * nat.

Inductive error : Type := ValueError | AssertionError.

Inductive result (A : Type) : Type :=
| Done (a : A)
| Fail (e : error).

Arguments Done {A} a.
Arguments Fail {A} e.

(** The attributes of a [Scalings] object ([items] is the empty list). *)
Record Scalings : Type := mkScalings {
  scale1 : R;
  scale2 : R;
  scale3 : R;
  stab : list entry
}.

(** [x < y] on tuples: the first components that differ decide. *)
Definition entry_ltb (x y : entry) : bool :=
  let '(a, b, scale, nbond) := x in
  let '(a', b', scale', nbond') := y in
  Nat.ltb a a'
  || (Nat.eqb a a'
      && (Nat.ltb b b'
          || (Nat.eqb b b'
              && (Rltb scale scale'
                  || (Reqb scale scale' && Nat.ltb nbond nbond'))))).

(** [stab.sort()]: the entries in ascending order, equal ones in the
    order they had. *)
Fixpoint insert (x : entry) (l : list entry) : list entry :=
  match l with
  | [] => [x]
  | y :: l' => if entry_ltb y x then y :: insert x l' else x :: y :: l'
  end.

Definition sort (l : list entry) : list entry := fold_right insert [] l.

(** One of the three inner loops: the entries that the atom [i0] adds for
    its neighbours in [neighs], when [scale < 1.0]. *)
Definition scaled (neighs : nat -> list nat) (scale : R) (nbond i0 : nat)
  : list entry :=
  if Rltb scale 1 then
    map (fun i => (i0, i, scale, nbond))
        (filter (fun i => Nat.ltb i i0) (neighs i0))
  else [].

(** [Scalings(system, scale1, scale2, scale3)], for a system of [natom]
    atoms with the neighbours [neighs1], [neighs2] and [neighs3].
    [check_mic] tells whether [self.check_mic(system)] raises its
    [AssertionError] for the table it is given. *)
Definition __init__ (natom : nat) (neighs1 neighs2 neighs3 : nat -> list nat)
           (check_mic : list entry -> bool) (scale1 scale2 scale3 : R)
  : result Scalings :=
  if Rltb scale1 0 || Rltb 1 scale1 then Fail ValueError
  else if Rltb scale2 0 || Rltb 1 scale2 then Fail ValueError
  else if Rltb scale3 0 || Rltb 1 scale3 then Fail ValueError
  else
    let stab :=
      sort (flat_map
              (fun i0 => scaled neighs1 scale1 1 i0
                         ++ scaled neighs2 scale2 2 i0
                         ++ scaled neighs3 scale3 3 i0)
              (seq 0 natom)) in
    if check_mic stab then Fail AssertionError
    else Done (mkScalings scale1 scale2 scale3 stab).

End Scaling.

(** ** Lemmas on arrays *)

Lemma map2_length {A B C : Type} (f : A -> B -> C) u v :
  length (map2 f u v) = Nat.min (length u) (length v).
Proof.
  revert v; induction u as [|a u IH]; intros [|b v]; simpl; auto.
Qed.

Lemma nth_map2 {A B C : Type} (f : A -> B -> C) u v i da db dc :
  (i < length u)%nat -> (i < length v)%nat ->
  nth i (map2 f u v) dc = f (nth i u da) (nth i v db).
Proof.
  revert v i; induction u as [|a u IH]; intros [|b v] [|i]; simpl;
    intros Hu Hv; try lia; auto.
  apply IH; lia.
Qed.

Lemma nth_map_in {A B : Type} (f : A -> B) l i da db :
  (i < length l)%nat -> nth i (map f l) db = f (nth i l da).
Proof.
  revert i; induction l as [|a l IH]; intros [|i]; simpl; intros Hi;
    try lia; auto.
  apply IH; lia.
Qed.

Lemma list_ext {A : Type} (d : A) (u v : list A) :
  length u = length v ->
  (forall i, (i < length u)%nat -> nth i u d = nth i v d) ->
  u = v.
Proof.
  revert v; induction u as [|a u IH]; intros [|b v]; simpl; intros Hl Hn;
    try discriminate; auto.
  f_equal.
  - apply (Hn 0%nat); lia.
  - apply IH; [lia|]. intros i Hi. apply (Hn (S i)); lia.
Qed.

Lemma square_row n M i :
  square n M -> (i < n)%nat -> length (nth i M []) = n.
Proof.
  intros [Hl Hr] Hi. rewrite Forall_forall in Hr.
  apply Hr. apply nth_In. lia.
Qed.

Lemma mat_ext n (A B : matrix) :
  square n A -> square n B ->
  (forall i j, (i < n)%nat -> (j < n)%nat -> entry A i j = entry B i j) ->
  A = B.
Proof.
  intros HA HB He.
  apply (list_ext []).
  - destruct HA as [HA _], HB as [HB _].
    transitivity n; [exact HA | symmetry; exact HB].
  - intros i Hi.
    assert (Hin : (i < n)%nat) by (destruct HA as [<- _]; exact Hi).
    apply (list_ext 0).
    + rewrite (square_row n A), (square_row n B); auto.
    + intros j Hj. rewrite (square_row n A) in Hj; auto.
      apply He; auto.
Qed.

Lemma ncols_square n M : square n M -> ncols M = n.
Proof.
  intros [Hl Hr]. destruct M as [|r M]; simpl in *; auto.
  inversion Hr; auto.
Qed.

Lemma square_transpose n M : square n M -> square n (transpose M).
Proof.
  intros HM. unfold transpose. rewrite (ncols_square n M HM).
  split.
  - now rewrite length_map, length_seq.
  - apply Forall_forall. intros row Hin.
    apply in_map_iff in Hin. destruct Hin as [j [<- _]].
    rewrite length_map. apply HM.
Qed.

Lemma entry_transpose n M i j :
  square n M -> (i < n)%nat -> (j < n)%nat ->
  entry (transpose M) i j = entry M j i.
Proof.
  intros HM Hi Hj. unfold entry, transpose.
  rewrite (ncols_square n M HM).
  rewrite (nth_map_in _ _ _ 0%nat) by (rewrite length_seq; lia).
  rewrite seq_nth by lia. simpl.
  rewrite (nth_map_in _ _ _ []) by (destruct HM; lia).
  reflexivity.
Qed.

Lemma symmetric_entries n M :
  square n M ->
  (symmetric M <->
   forall i j, (i < n)%nat -> (j < n)%nat -> entry M i j = entry M j i).
Proof.
  intros HM. unfold symmetric. split.
  - intros Heq i j Hi Hj.
    rewrite <- Heq at 1. now apply (entry_transpose n).
  - intros He. apply (mat_ext n); auto using square_transpose.
    intros i j Hi Hj. rewrite (entry_transpose n); auto.
Qed.

Lemma square_map2 (f : R -> R -> R) n A B :
  square n A -> square n B -> square n (map2 (map2 f) A B).
Proof.
  intros [HlA HrA] [HlB HrB]. split.
  - rewrite map2_length, HlA, HlB. apply Nat.min_id.
  - clear HlA HlB. revert B HrB.
    induction A as [|a A IH]; intros [|b B] HrB; simpl; auto.
    inversion HrA as [|? ? Ha HA']; inversion HrB as [|? ? Hb HB']; subst.
    constructor.
    + rewrite map2_length, Hb. apply Nat.min_id.
    + apply IH; auto.
Qed.

Lemma entry_map2 (f : R -> R -> R) n A B i j :
  square n A -> square n B -> (i < n)%nat -> (j < n)%nat ->
  entry (map2 (map2 f) A B) i j = f (entry A i j) (entry B i j).
Proof.
  intros HA HB Hi Hj. unfold entry.
  rewrite (nth_map2 _ _ _ _ [] [])
    by (destruct HA as [HA _], HB as [HB _]; lia).
  apply nth_map2.
  - rewrite (square_row n A); auto.
  - rewrite (square_row n B); auto.
Qed.

Lemma square_outer n u v :
  length u = n -> length v = n -> square n (outer u v).
Proof.
  intros Hu Hv. unfold outer. split.
  - now rewrite length_map.
  - apply Forall_forall. intros row Hin.
    apply in_map_iff in Hin. destruct Hin as [a [<- _]].
    now rewrite length_map.
Qed.

Lemma entry_outer u v i j :
  (i < length u)%nat -> (j < length v)%nat ->
  entry (outer u v) i j = nth i u 0 * nth j v 0.
Proof.
  intros Hi Hj. unfold entry, outer.
  rewrite (nth_map_in _ _ _ 0) by auto.
  now rewrite (nth_map_in _ _ _ 0) by auto.
Qed.

Lemma square_mdiv n M d : square n M -> square n (mdiv M d).
Proof.
  intros [Hl Hr]. unfold mdiv. split.
  - now rewrite length_map.
  - apply Forall_forall. intros row Hin.
    apply in_map_iff in Hin. destruct Hin as [r [<- Hin]].
    rewrite length_map. rewrite Forall_forall in Hr. auto.
Qed.

Lemma entry_mdiv n M d i j :
  square n M -> (i < n)%nat -> (j < n)%nat ->
  entry (mdiv M d) i j = entry M i j / d.
Proof.
  intros HM Hi Hj. unfold entry, mdiv.
  rewrite (nth_map_in _ _ _ []) by (destruct HM as [HM _]; lia).
  apply (nth_map_in (fun a => a / d)). rewrite (square_row n M); auto.
Qed.

Lemma mv_length M v : length (mv M v) = length M.
Proof. apply length_map. Qed.

Lemma square_identity n : square n (identity n).
Proof.
  unfold identity. split.
  - now rewrite length_map, length_seq.
  - apply Forall_forall. intros row Hin.
    apply in_map_iff in Hin. destruct Hin as [i [<- _]].
    now rewrite length_map, length_seq.
Qed.

Lemma entry_identity n i j :
  (i < n)%nat -> (j < n)%nat ->
  entry (identity n) i j = if Nat.eqb i j then 1 else 0.
Proof.
  intros Hi Hj. unfold entry, identity.
  rewrite (nth_map_in _ _ _ 0%nat) by (rewrite length_seq; auto).
  rewrite (nth_map_in _ _ _ 0%nat) by (rewrite length_seq; auto).
  now rewrite !seq_nth by auto.
Qed.

Lemma symmetric_identity n : symmetric (identity n).
Proof.
  apply (symmetric_entries n); [apply square_identity|].
  intros i j Hi Hj. rewrite !entry_identity by auto.
  now rewrite Nat.eqb_sym.
Qed.

(** ** The reductions [max] and [min] *)

Lemma fold_left_Rmax_spec t a :
  is_max (fold_left Rmax t a) (a :: t).
Proof.
  revert a; induction t as [|b t IH]; intros a; simpl.
  - split; [now left | constructor; [lra | constructor]].
  - destruct (IH (Rmax a b)) as [Hin Hall]. split.
    + destruct Hin as [Heq | Hin]; [|now right; right].
      rewrite <- Heq. unfold Rmax. destruct (Rle_dec a b); simpl; auto.
    + inversion Hall as [|? ? Hab Ht]; subst.
      pose proof (Rmax_l a b). pose proof (Rmax_r a b).
      constructor; [lra|]. constructor; [lra | exact Ht].
Qed.

Lemma fold_left_Rmin_spec t a :
  is_min (fold_left Rmin t a) (a :: t).
Proof.
  revert a; induction t as [|b t IH]; intros a; simpl.
  - split; [now left | constructor; [lra | constructor]].
  - destruct (IH (Rmin a b)) as [Hin Hall]. split.
    + destruct Hin as [Heq | Hin]; [|now right; right].
      rewrite <- Heq. unfold Rmin. destruct (Rle_dec a b); simpl; auto.
    + inversion Hall as [|? ? Hab Ht]; subst.
      pose proof (Rmin_l a b). pose proof (Rmin_r a b).
      constructor; [lra|]. constructor; [lra | exact Ht].
Qed.

Lemma is_max_unique m m' l : is_max m l -> is_max m' l -> m = m'.
Proof.
  intros [Hin Hall] [Hin' Hall']. rewrite Forall_forall in Hall, Hall'.
  apply Rle_antisym; auto.
Qed.

Lemma is_min_unique m m' l : is_min m l -> is_min m' l -> m = m'.
Proof.
  intros [Hin Hall] [Hin' Hall']. rewrite Forall_forall in Hall, Hall'.
  apply Rle_antisym; auto.
Qed.

Lemma amax_is_max l m : amax l = Some m <-> is_max m l.
Proof.
  destruct l as [|a t]; simpl.
  - split; [discriminate | intros [[] _]].
  - split.
    + intros [= <-]. apply fold_left_Rmax_spec.
    + intros Hm. f_equal.
      apply (is_max_unique _ _ (a :: t)); auto using fold_left_Rmax_spec.
Qed.

Lemma amin_is_min l m : amin l = Some m <-> is_min m l.
Proof.
  destruct l as [|a t]; simpl.
  - split; [discriminate | intros [[] _]].
  - split.
    + intros [= <-]. apply fold_left_Rmin_spec.
    + intros Hm. f_equal.
      apply (is_min_unique _ _ (a :: t)); auto using fold_left_Rmin_spec.
Qed.



(** ** Comparisons *)

Lemma Rltb_true a b : Rltb a b = true <-> a < b.
Proof. unfold Rltb. destruct (Rlt_dec a b); split; auto; discriminate. Qed.

Lemma Rltb_false a b : Rltb a b = false <-> b <= a.
Proof.
  unfold Rltb. destruct (Rlt_dec a b); split; auto; try discriminate; lra.
Qed.

Lemma Rleb_true a b : Rleb a b = true <-> a <= b.
Proof. unfold Rleb. destruct (Rle_dec a b); split; auto; discriminate. Qed.

Lemma Rleb_false a b : Rleb a b = false <-> b < a.
Proof.
  unfold Rleb. destruct (Rle_dec a b); split; auto; try discriminate; lra.
Qed.

Lemma Reqb_true a b : Reqb a b = true <-> a = b.
Proof. unfold Reqb. destruct (Req_dec_T a b); split; auto; discriminate. Qed.

Lemma Reqb_false a b : Reqb a b = false <-> a <> b.
Proof.
  unfold Reqb. destruct (Req_dec_T a b); split; auto; try discriminate.
  intros Hn. contradiction.
Qed.

(** ** Sums and dot products *)

Lemma vsum_app u v : vsum (u ++ v) = vsum u + vsum v.
Proof. induction u as [|a u IH]; simpl; [lra | rewrite IH; lra]. Qed.

Lemma vsum_map_ext {A : Type} (f g : A -> R) l :
  (forall a, In a l -> f a = g a) -> vsum (map f l) = vsum (map g l).
Proof.
  induction l as [|a l IH]; simpl; intros Hfg; auto.
  rewrite (Hfg a) by auto. rewrite IH; auto.
Qed.

Lemma vsum_map_plus {A : Type} (f g : A -> R) l :
  vsum (map (fun a => f a + g a) l) = vsum (map f l) + vsum (map g l).
Proof. induction l as [|a l IH]; simpl; [lra | rewrite IH; lra]. Qed.

Lemma vsum_map_scal {A : Type} (c : R) (f : A -> R) l :
  vsum (map (fun a => c * f a) l) = c * vsum (map f l).
Proof. induction l as [|a l IH]; simpl; [lra | rewrite IH; lra]. Qed.

Lemma vsum_map_zero {A : Type} (l : list A) : vsum (map (fun _ => 0) l) = 0.
Proof. induction l as [|a l IH]; simpl; [lra | rewrite IH; lra]. Qed.


Lemma dot_nth n u v :
  length u = n -> length v = n ->
  dot u v = vsum (map (fun i => nth i u 0 * nth i v 0) (seq 0 n)).
Proof.
  revert n v. induction u as [|a u IH]; intros n [|b v] Hu Hv;
    simpl in *; subst; try discriminate; auto.
  injection Hv as Hv. unfold dot in *. simpl. f_equal.
  rewrite (IH (length u) v) by auto.
  now rewrite <- seq_shift, map_map.
Qed.

Lemma vsum_delta n k (f : nat -> R) :
  (k < n)%nat ->
  vsum (map (fun j => f j * (if Nat.eqb j k then 1 else 0)) (seq 0 n)) = f k.
Proof.
  induction n as [|n IH]; intros Hk; [lia|].
  rewrite seq_S, map_app, vsum_app. simpl.
  destruct (Nat.eq_dec k n) as [->|Hne].
  - rewrite Nat.eqb_refl.
    rewrite (vsum_map_ext _ (fun _ => 0)).
    + rewrite vsum_map_zero. lra.
    + intros j Hj. apply in_seq in Hj.
      destruct (Nat.eqb_spec j n); [lia | lra].
  - rewrite IH by lia.
    destruct (Nat.eqb_spec n k); [lia | lra].
Qed.




(** ** BFGSHessianModel.update *)

Lemma square_rank2 n hessian dx dg d1 d2 :
  square n hessian -> length dg = n ->
  square n (madd (msub hessian (mdiv (outer (mv hessian dx) (mv hessian dx)) d1))
                 (mdiv (outer dg dg) d2)).
Proof.
  intros HH Hg.
  assert (Ht : length (mv hessian dx) = n) by (rewrite mv_length; apply HH).
  apply square_map2; [apply square_map2; auto|];
    apply square_mdiv, square_outer; auto.
Qed.

Lemma entry_rank2 n hessian dx dg d1 d2 i j :
  square n hessian -> length dg = n -> (i < n)%nat -> (j < n)%nat ->
  entry (madd (msub hessian (mdiv (outer (mv hessian dx) (mv hessian dx)) d1))
              (mdiv (outer dg dg) d2)) i j
  = entry hessian i j
    - nth i (mv hessian dx) 0 * nth j (mv hessian dx) 0 / d1
    + nth i dg 0 * nth j dg 0 / d2.
Proof.
  intros HH Hg Hi Hj.
  assert (Ht : length (mv hessian dx) = n) by (rewrite mv_length; apply HH).
  unfold madd, msub, vadd, vsub.
  rewrite (entry_map2 _ n); auto;
    [| apply square_map2; auto; apply square_mdiv, square_outer; auto
     | apply square_mdiv, square_outer; auto ].
  rewrite (entry_map2 _ n); auto;
    [| apply square_mdiv, square_outer; auto ].
  rewrite !(entry_mdiv n) by (auto; apply square_outer; auto).
  rewrite !entry_outer by lia.
  reflexivity.
Qed.

(** C3: with [Hdx = H.dx], [hmax = max |H_ij|], [denom1 = dx.Hdx] and
    [denom2 = dg.dx], [update(dx, dg)] leaves the stored matrix as it is
    when [hmax*denom1 <= 1e-5*max|Hdx|] or [hmax*denom2 <= 1e-5*max|dg|],
    and otherwise stores [H - (Hdx (x) Hdx)/denom1 + (dg (x) dg)/denom2]. *)
Theorem update_skips_or_corrects n hessian dx dg hmax tmpmax dgmax :
  square n hessian -> length dx = n -> length dg = n ->
  is_max hmax (mabs_entries hessian) ->
  is_max tmpmax (vabs (mv hessian dx)) ->
  is_max dgmax (vabs dg) ->
  let Hdx := mv hessian dx in
  let denom1 := dot dx Hdx in
  let denom2 := dot dg dx in
  let gate := hmax * denom1 <= 1e-5 * tmpmax \/ hmax * denom2 <= 1e-5 * dgmax in
  (gate -> BFGSHessianModel.update hessian dx dg = Ret hessian) /\
  (~ gate ->
   exists h',
     BFGSHessianModel.update hessian dx dg = Ret h' /\
     h' = madd (msub hessian (mdiv (outer Hdx Hdx) denom1))
               (mdiv (outer dg dg) denom2) /\
     square n h' /\
     forall i j, (i < n)%nat -> (j < n)%nat ->
       entry h' i j = BFGSHessianModel.secant_entry hessian dx dg i j).
Proof.
  intros HH Hx Hg Hhmax Htmax Hgmax Hdx denom1 denom2 gate.
  apply amax_is_max in Hhmax, Htmax, Hgmax.
  unfold BFGSHessianModel.update. rewrite Hhmax, Htmax, Hgmax.
  fold Hdx denom1 denom2.
  split.
  - intros Hgate.
    destruct (Rleb (hmax * denom1) (1e-5 * tmpmax)) eqn:E1; auto.
    destruct (Rleb (hmax * denom2) (1e-5 * dgmax)) eqn:E2; auto.
    apply Rleb_false in E1, E2. destruct Hgate; lra.
  - intros Hgate.
    destruct (Rleb (hmax * denom1) (1e-5 * tmpmax)) eqn:E1.
    { apply Rleb_true in E1. exfalso. apply Hgate. now left. }
    destruct (Rleb (hmax * denom2) (1e-5 * dgmax)) eqn:E2.
    { apply Rleb_true in E2. exfalso. apply Hgate. now right. }
    eexists. split; [reflexivity|]. split; [reflexivity|]. split.
    + now apply square_rank2.
    + intros i j Hi Hj. unfold BFGSHessianModel.secant_entry.
      now apply (entry_rank2 n).
Qed.

Lemma update_square n hessian dx dg :
  square n hessian -> length dg = n ->
  square n (BFGSHessianModel.stored hessian
              (BFGSHessianModel.update hessian dx dg)).
Proof.
  intros HH Hg. unfold BFGSHessianModel.update.
  destruct (amax (mabs_entries hessian)); simpl; auto.
  destruct (amax (vabs (mv hessian dx))); simpl; auto.
  destruct (Rleb _ _); simpl; auto.
  destruct (amax (vabs dg)); simpl; auto.
  destruct (Rleb _ _); simpl; auto.
  now apply square_rank2.
Qed.

Lemma update_symmetric n hessian dx dg :
  square n hessian -> symmetric hessian -> length dg = n ->
  symmetric (BFGSHessianModel.stored hessian
               (BFGSHessianModel.update hessian dx dg)).
Proof.
  intros HH Hs Hg. unfold BFGSHessianModel.update.
  destruct (amax (mabs_entries hessian)); simpl; auto.
  destruct (amax (vabs (mv hessian dx))); simpl; auto.
  destruct (Rleb _ _); simpl; auto.
  destruct (amax (vabs dg)); simpl; auto.
  destruct (Rleb _ _); simpl; auto.
  apply (symmetric_entries n); [now apply square_rank2|].
  intros i j Hi Hj. rewrite !(entry_rank2 n) by auto.
  rewrite (proj1 (symmetric_entries n hessian HH) Hs i j) by auto.
  lra.
Qed.

(** C2: [update(dx, dg)] maps a symmetric matrix to a symmetric matrix,
    whether it skips, corrects or raises; the model starts from the
    identity, so the stored matrix is symmetric after every sequence of
    updates. *)
Theorem update_keeps_symmetry n :
  (forall hessian dx dg,
     square n hessian -> symmetric hessian ->
     length dx = n -> length dg = n ->
     symmetric (BFGSHessianModel.stored hessian
                  (BFGSHessianModel.update hessian dx dg))) /\
  (forall steps,
     Forall (fun step => length (fst step) = n /\ length (snd step) = n) steps ->
     symmetric (BFGSHessianModel.updates (BFGSHessianModel.init n) steps)).
Proof.
  split.
  - intros hessian dx dg HH Hs _ Hg. now apply (update_symmetric n).
  - intros steps Hsteps. unfold BFGSHessianModel.init.
    assert (Hinv : square n (identity n) /\ symmetric (identity n))
      by (split; [apply square_identity | apply symmetric_identity]).
    revert Hinv. generalize (identity n) as h.
    induction Hsteps as [|[dx dg] steps [_ Hg] _ IH]; intros h [Hsq Hsym];
      simpl in *; auto.
    apply IH. split.
    + now apply update_square.
    + now apply (update_symmetric n).
Qed.

(** ** CGOptimizer.propagate *)

Section CGOptimizerFacts.

  Variables DOF Iterative Minimizer : Type.
  Variable dof_check_convergence : DOF -> DOF.
  Variable dof_converged : DOF -> bool.
  Variable Iterative_propagate :
    BaseOptimizer.state DOF Iterative -> BaseOptimizer.state DOF Iterative.
  Variable Minimizer_propagate :
    Minimizer -> BaseOptimizer.state DOF Iterative ->
    Minimizer * BaseOptimizer.state DOF Iterative * bool.
  Variable Minimizer_x : Minimizer -> vec.
  Variable log_level : nat.

  Local Abbreviation propagate :=
    (CGOptimizer.propagate dof_check_convergence dof_converged
       Iterative_propagate Minimizer Minimizer_propagate Minimizer_x
       log_level).

(** C8: when the minimizer's [propagate] returns False,
    [CGOptimizer.propagate] returns True; after the one call of the
    minimizer it calls nothing but the warning of the log: the DOF and the
    driver are as the minimizer left them, no convergence refresh and no
    second step of the minimizer takes place. *)
Theorem propagate_failure_terminates s m b :
  Minimizer_propagate (CGOptimizer.minimizer s)
    (BaseOptimizer.record MinimizerPropagate (CGOptimizer.base s))
  = (m, b, false) ->
  snd (propagate s) = true /\
  CGOptimizer.minimizer (fst (propagate s)) = m /\
  BaseOptimizer.dof (CGOptimizer.base (fst (propagate s)))
  = BaseOptimizer.dof b /\
  BaseOptimizer.iterative (CGOptimizer.base (fst (propagate s)))
  = BaseOptimizer.iterative b /\
  BaseOptimizer.epot (CGOptimizer.base (fst (propagate s)))
  = BaseOptimizer.epot b /\
  BaseOptimizer.calls (CGOptimizer.base (fst (propagate s)))
  = BaseOptimizer.calls b
    ++ (if ScreenLog.do_warning log_level then [LogWarn] else []).
Proof.
  intros Hm. unfold CGOptimizer.propagate. rewrite Hm. simpl.
  destruct (ScreenLog.do_warning log_level); simpl;
    repeat split; auto using app_nil_r.
Qed.

(** C10: [CGOptimizer.propagate] stores the minimizer's iterate in [x]
    whatever the success flag is: after a failed step [x] is the iterate
    of the minimizer, not the coordinates held before. *)
Theorem propagate_overwrites_x s m b success :
  Minimizer_propagate (CGOptimizer.minimizer s)
    (BaseOptimizer.record MinimizerPropagate (CGOptimizer.base s))
  = (m, b, success) ->
  CGOptimizer.x (fst (propagate s)) = Some (Minimizer_x m).
Proof.
  intros Hm. unfold CGOptimizer.propagate. rewrite Hm.
  destruct success; reflexivity.
Qed.

End CGOptimizerFacts.

(** ** BFGSOptimizer.make_step *)

Lemma ridge_loop_ret k tmp1 evals trust ridge tmp2 ridge' :
  BFGSOptimizer.ridge_loop k tmp1 evals trust ridge = Some (Ret (tmp2, ridge')) ->
  all_finite (BFGSOptimizer.eigen_step tmp1 evals ridge') = Some tmp2 /\
  norm tmp2 < trust.
Proof.
  revert ridge. induction k as [|k IH]; intros ridge; simpl; [discriminate|].
  assert (Hgrow :
    match BFGSOptimizer.grow_ridge evals ridge with
    | Ret r => BFGSOptimizer.ridge_loop k tmp1 evals trust r
    | Raise e => Some (Raise e)
    end = Some (Ret (tmp2, ridge')) ->
    all_finite (BFGSOptimizer.eigen_step tmp1 evals ridge') = Some tmp2 /\
    norm tmp2 < trust).
  { destruct (BFGSOptimizer.grow_ridge evals ridge) as [r|e];
      [apply IH | discriminate]. }
  destruct (all_finite (BFGSOptimizer.eigen_step tmp1 evals ridge))
    as [q|] eqn:Eq; auto.
  destruct (Rltb (norm q) trust) eqn:El; auto.
  intros [= <- <-]. split; [exact Eq | now apply Rltb_true].
Qed.

Lemma in_nonzero e evals : In e (nonzero evals) <-> In e evals /\ e <> 0.
Proof.
  unfold nonzero. rewrite filter_In. split; intros [Hin He]; split; auto.
  - apply Reqb_false. now destruct (Reqb e 0).
  - apply Reqb_false in He. now rewrite He.
Qed.

Lemma smallest_nonzero_abs_amin r evals :
  smallest_nonzero_abs r evals <-> amin (vabs (nonzero evals)) = Some r.
Proof.
  rewrite amin_is_min. unfold smallest_nonzero_abs, is_min, vabs.
  rewrite Forall_forall. split.
  - intros [(e & Hin & He & ->) Hmin]. split.
    + apply in_map. now apply in_nonzero.
    + intros a Ha. apply in_map_iff in Ha. destruct Ha as (e' & <- & Hin').
      apply in_nonzero in Hin'. destruct Hin'. auto.
  - intros [Hin Hmin]. split.
    + apply in_map_iff in Hin. destruct Hin as (e & <- & Hin').
      apply in_nonzero in Hin'. destruct Hin'. eauto.
    + intros e Hie He. apply Hmin. apply in_map. now apply in_nonzero.
Qed.






(** *** The inner loop terminates

    With a ridge that is not zero the step is finite, and its norm is at
    most [|tmp1*evals|/ridge^2]; the ridge grows by the factor 1.2, so the
    norm falls below any positive trust radius. *)

Lemma dot_self_nonneg v : 0 <= dot v v.
Proof.
  induction v as [|a v IH]; unfold dot in *; simpl; [lra | nra].
Qed.

Lemma all_finite_eigen_step tmp1 evals ridge :
  ridge <> 0 ->
  all_finite (BFGSOptimizer.eigen_step tmp1 evals ridge)
  = Some (map2 (fun p e => p * e / (e ^ 2 + ridge ^ 2)) tmp1 evals).
Proof.
  intros Hr. unfold BFGSOptimizer.eigen_step.
  revert evals. induction tmp1 as [|p tmp1 IH]; intros [|e evals];
    cbn [map2 all_finite]; auto.
  unfold np_div. rewrite (proj2 (Reqb_false (e ^ 2 + ridge ^ 2) 0)) by nra.
  now rewrite IH.
Qed.

Lemma regularised_step_bound tmp1 evals ridge :
  0 < ridge ->
  let q := map2 (fun p e => p * e / (e ^ 2 + ridge ^ 2)) tmp1 evals in
  let w := map2 Rmult tmp1 evals in
  dot q q * ridge ^ 4 <= dot w w.
Proof.
  intros Hr. cbv zeta. revert evals.
  induction tmp1 as [|p tmp1 IH]; intros [|e evals]; cbn [map2];
    try (unfold dot; simpl; lra).
  specialize (IH evals).
  change (dot (?a :: ?u) (?a :: ?u)) with (a * a + dot u u).
  change (dot (p * e :: map2 Rmult tmp1 evals) (p * e :: map2 Rmult tmp1 evals))
    with (p * e * (p * e) + dot (map2 Rmult tmp1 evals) (map2 Rmult tmp1 evals)).
  set (d := e ^ 2 + ridge ^ 2).
  set (t := p * e / d).
  assert (Hd : ridge ^ 2 <= d) by (unfold d; nra).
  assert (Ht : t * d = p * e) by (unfold t; field; nra).
  assert (Hd2 : ridge ^ 4 <= d * d) by nra.
  assert (Ht2 : t * t * ridge ^ 4 <= t * t * (d * d))
    by (apply Rmult_le_compat_l; [nra | exact Hd2]).
  replace (p * e * (p * e)) with (t * t * (d * d)) by (rewrite <- Ht; ring).
  lra.
Qed.

Lemma norm_lt_of_dot v trust :
  0 < trust -> dot v v < trust ^ 2 -> norm v < trust.
Proof.
  intros Ht Hlt. unfold norm.
  rewrite <- (sqrt_pow2 trust) by lra.
  apply sqrt_lt_1_alt. split; [apply dot_self_nonneg | exact Hlt].
Qed.

Lemma ridge_loop_terminates_pos tmp1 evals trust m :
  0 < trust ->
  forall ridge,
    0 < ridge ->
    dot (map2 Rmult tmp1 evals) (map2 Rmult tmp1 evals) / trust ^ 2 + 1
    <= ridge * 1.2 ^ m ->
    exists tmp2 ridge',
      BFGSOptimizer.ridge_loop (S m) tmp1 evals trust ridge
      = Some (Ret (tmp2, ridge')).
Proof.
  intros Ht. set (W := dot (map2 Rmult tmp1 evals) (map2 Rmult tmp1 evals)).
  assert (HW : 0 <= W) by apply dot_self_nonneg.
  assert (HB : 0 <= W / trust ^ 2)
    by (apply Rmult_le_pos; [exact HW | left; apply Rinv_0_lt_compat; nra]).
  induction m as [|m IH]; intros ridge Hr Hb.
  - cbn [BFGSOptimizer.ridge_loop].
    rewrite all_finite_eigen_step by lra.
    rewrite (proj2 (Rltb_true _ _)); [eauto|].
    apply norm_lt_of_dot; [exact Ht|].
    pose proof (regularised_step_bound tmp1 evals ridge Hr) as Hq.
    cbv zeta in Hq. fold W in Hq.
    rewrite pow_O, Rmult_1_r in Hb.
    set (Q := dot (map2 _ tmp1 evals) (map2 _ tmp1 evals)) in *.
    assert (H1 : 1 <= ridge) by lra.
    assert (H3 : 1 <= ridge ^ 3) by (apply pow_R1_Rle; lra).
    assert (H4 : ridge <= ridge ^ 4)
      by (replace (ridge ^ 4) with (ridge * ridge ^ 3) by ring; nra).
    assert (HWt : W < ridge ^ 4 * trust ^ 2).
    { assert (Hx : W / trust ^ 2 < ridge ^ 4) by lra.
      apply (Rmult_lt_compat_r (trust ^ 2)) in Hx; [|nra].
      replace (W / trust ^ 2 * trust ^ 2) with W in Hx by (field; nra).
      exact Hx. }
    apply (Rmult_lt_reg_r (ridge ^ 4)); [nra | lra].
  - cbn [BFGSOptimizer.ridge_loop].
    rewrite all_finite_eigen_step by lra.
    destruct (Rltb _ trust); [eauto|].
    unfold BFGSOptimizer.grow_ridge.
    rewrite (proj2 (Reqb_false ridge 0)) by lra.
    apply IH; [lra|]. rewrite <- tech_pow_Rmult in Hb.
    replace (ridge * 1.2 * 1.2 ^ m) with (ridge * (1.2 * 1.2 ^ m)) by ring.
    exact Hb.
Qed.

Lemma pow_1_2_unbounded b : exists m : nat, b <= 1.2 ^ m.
Proof.
  destruct (Pow_x_infinity 1.2) with (b := b) as [N HN].
  - rewrite Rabs_right; lra.
  - exists N. specialize (HN N (le_n N)).
    rewrite Rabs_right in HN; [lra|].
    apply Rle_ge. apply pow_le. lra.
Qed.

(** X4: the inner loop of [make_step] terminates for every positive trust
    radius and every ridge that is not negative: with enough fuel it
    returns a step or raises. *)
Theorem ridge_loop_terminates tmp1 evals trust ridge :
  0 < trust -> 0 <= ridge ->
  exists fuel r,
    BFGSOptimizer.ridge_loop fuel tmp1 evals trust ridge = Some r.
Proof.
  intros Ht Hr.
  assert (Hpos : forall ridge', 0 < ridge' ->
            exists fuel r,
              BFGSOptimizer.ridge_loop fuel tmp1 evals trust ridge' = Some r).
  { intros ridge' Hr'.
    destruct (pow_1_2_unbounded
                ((dot (map2 Rmult tmp1 evals) (map2 Rmult tmp1 evals)
                  / trust ^ 2 + 1) / ridge')) as [m Hm].
    destruct (ridge_loop_terminates_pos tmp1 evals trust m Ht ridge' Hr')
      as (tmp2 & r' & Hl).
    - apply (Rmult_le_compat_l ridge') in Hm; [|lra].
      replace (ridge' * (_ / ridge')) with
        (dot (map2 Rmult tmp1 evals) (map2 Rmult tmp1 evals) / trust ^ 2 + 1)
        in Hm by (field; lra).
      exact Hm.
    - eauto. }
  destruct (Req_dec ridge 0) as [->|Hnz]; [|apply Hpos; lra].
  destruct (BFGSOptimizer.grow_ridge evals 0) as [r1|e] eqn:Eg.
  - assert (Hr1 : 0 < r1).
    { unfold BFGSOptimizer.grow_ridge in Eg.
      rewrite (proj2 (Reqb_true 0 0) eq_refl) in Eg.
      destruct (amin (vabs (nonzero evals))) as [r|] eqn:Ea; [|discriminate].
      injection Eg as <-. apply smallest_nonzero_abs_amin in Ea.
      destruct Ea as [(e & _ & He & ->) _]. now apply Rabs_pos_lt. }
    destruct (Hpos r1 Hr1) as (fuel & r & Hl).
    exists (S fuel). cbn [BFGSOptimizer.ridge_loop]. rewrite Eg, Hl.
    destruct (all_finite _) as [q|]; [destruct (Rltb _ _)|]; eauto.
  - exists 1%nat. cbn [BFGSOptimizer.ridge_loop]. rewrite Eg.
    destruct (all_finite _) as [q|]; [destruct (Rltb _ _)|]; eauto.
Qed.

Section BFGSOptimizerFacts.

  Variables DOF Iterative : Type.
  Variable dof_fun : DOF -> vec -> DOF * (R * vec).
  Variable dof_check_convergence : DOF -> DOF.
  Variable dof_converged : DOF -> bool.
  Variable Iterative_propagate :
    BaseOptimizer.state DOF Iterative -> BaseOptimizer.state DOF Iterative.
  Variable eigh : matrix -> vec * matrix.

  Import BFGSOptimizer.

  Local Abbreviation state := (BFGSOptimizer.state DOF Iterative).
  Local Abbreviation trial := (BFGSOptimizer.trial dof_fun).
  Local Abbreviation trust_loop := (BFGSOptimizer.trust_loop dof_fun).
  Local Abbreviation rejected := (BFGSOptimizer.rejected dof_fun).
  Local Abbreviation make_step := (BFGSOptimizer.make_step dof_fun eigh).
  Local Abbreviation propagate :=
    (BFGSOptimizer.propagate dof_fun dof_check_convergence dof_converged
       Iterative_propagate eigh).

Lemma same_model_refl (s : state) : same_model s s.
Proof. repeat split. Qed.

Lemma same_model_trans (s1 s2 s3 : state) :
  same_model s1 s2 -> same_model s2 s3 -> same_model s1 s3.
Proof.
  unfold same_model. intros H12 H23.
  repeat match goal with H : _ /\ _ |- _ => destruct H end.
  repeat split; congruence.
Qed.

Lemma trial_reject k tmp1 evals evecs (s : state) ridge (s' : state) ridge' :
  trial k tmp1 evals evecs s ridge = Some (Ret (Reject, s', ridge')) ->
  trust_radius s' = trust_radius s * 0.5 /\ same_model s s'.
Proof.
  unfold BFGSOptimizer.trial.
  destruct (ridge_loop k tmp1 evals (trust_radius s) ridge)
    as [[[tmp2 r]|e]|]; try discriminate.
  destruct (BaseOptimizer.fun_ dof_fun (base s) _) as [b [f' g']].
  destruct (_ || _); [|destruct (Rltb _ _)]; intros [= <- <-];
    (split; [reflexivity | repeat split]).
Qed.

Lemma trial_accept k tmp1 evals evecs (s : state) ridge x' f' g'
      (s' : state) ridge' :
  trial k tmp1 evals evecs s ridge = Some (Ret (Accept x' f' g', s', ridge')) ->
  exists tmp2,
    all_finite (eigen_step tmp1 evals ridge') = Some tmp2 /\
    norm tmp2 < trust_radius s /\
    x' = vadd (x_old s) (mv evecs tmp2) /\
    f' <= f_old s /\
    ~ (trust_radius s < small_radius s /\ norm g' < norm (g_old s)) /\
    dot (mv evecs tmp2) g' <= 0 /\
    trust_radius s' = trust_radius s * 1.2 /\ same_model s s'.
Proof.
  unfold BFGSOptimizer.trial.
  destruct (ridge_loop k tmp1 evals (trust_radius s) ridge)
    as [[[tmp2 r]|e]|] eqn:Er; try discriminate.
  apply ridge_loop_ret in Er. destruct Er as [Hfin Hnorm].
  cbv zeta.
  destruct (BaseOptimizer.fun_ dof_fun (base s) _) as [b [f1 g1]].
  destruct (_ || _) eqn:E1; [discriminate|].
  destruct (Rltb 0 (dot _ _)) eqn:E2; [discriminate|].
  intros Heq. injection Heq as <- <- <- <- <-. exists tmp2.
  apply orb_false_elim in E1. destruct E1 as [Ef Eg].
  apply Rltb_false in Ef, E2. simpl in Ef, Eg.
  repeat split; auto; try lra.
  intros [Ht Hg]. apply andb_false_elim in Eg.
  destruct Eg as [Eg|Eg]; apply Rltb_false in Eg; lra.
Qed.

Lemma rejected_radius tmp1 evals evecs n (c c' : state * R) :
  rejected tmp1 evals evecs n c c' ->
  trust_radius (fst c') = 0.5 ^ n * trust_radius (fst c) /\
  same_model (fst c) (fst c').
Proof.
  induction 1 as [c|n k s ridge s1 ridge1 c Ht _ [IHr IHm]]; simpl.
  - split; [lra | apply same_model_refl].
  - apply trial_reject in Ht. destruct Ht as [Hr Hm]. simpl in *. split.
    + rewrite IHr, Hr. lra.
    + eapply same_model_trans; eauto.
Qed.


(** The outer loop returns after some number of rejected trials and one
    accepted trial. *)
Lemma trust_loop_ret fuel tmp1 evals evecs (s : state) ridge x' f' g'
      (s' : state) :
  trust_loop fuel tmp1 evals evecs s ridge = Some (Ret (x', f', g', s')) ->
  exists n s1 ridge1 k ridge2,
    rejected tmp1 evals evecs n (s, ridge) (s1, ridge1) /\
    trial k tmp1 evals evecs s1 ridge1
    = Some (Ret (Accept x' f' g', s', ridge2)).
Proof.
  revert s ridge. induction fuel as [|fuel IH]; intros s ridge; simpl;
    [discriminate|].
  destruct (trial fuel tmp1 evals evecs s ridge)
    as [[[[[xa fa ga|] s1] ridge1]|e]|] eqn:Et; try discriminate.
  - intros [= <- <- <- <-].
    exists 0%nat, s, ridge, fuel, ridge1. split; [constructor | exact Et].
  - intros Hl. apply IH in Hl.
    destruct Hl as (n & s2 & ridge2 & k & ridge3 & Hr & Ha).
    exists (S n), s2, ridge2, k, ridge3. split; [|exact Ha].
    econstructor; eauto.
Qed.

Lemma make_step_ret fuel (s : state) x' f' g' (s' : state) :
  make_step fuel s = Some (Ret (x', f', g', s')) ->
  exists ridge0 n s1 ridge1 k ridge2,
    let evals := fst (eigh (hessian s)) in
    let evecs := snd (eigh (hessian s)) in
    let tmp1 := vopp (mv (transpose evecs) (g_old s)) in
    initial_ridge evals = Ret ridge0 /\
    rejected tmp1 evals evecs n (s, ridge0) (s1, ridge1) /\
    trial k tmp1 evals evecs s1 ridge1
    = Some (Ret (Accept x' f' g', s', ridge2)).
Proof.
  unfold BFGSOptimizer.make_step.
  destruct (eigh (hessian s)) as [evals evecs]. simpl.
  destruct (initial_ridge evals) as [ridge0|e] eqn:Ei; [|discriminate].
  intros Hl. apply trust_loop_ret in Hl.
  destruct Hl as (n & s1 & ridge1 & k & ridge2 & Hr & Ha).
  exists ridge0, n, s1, ridge1, k, ridge2. auto.
Qed.

Lemma make_step_unfold fuel (s : state) evals evecs ridge0 :
  eigh (hessian s) = (evals, evecs) ->
  initial_ridge evals = Ret ridge0 ->
  make_step fuel s
  = trust_loop fuel (vopp (mv (transpose evecs) (g_old s))) evals evecs s
      ridge0.
Proof.
  intros He Hi. unfold BFGSOptimizer.make_step. now rewrite He, Hi.
Qed.

Lemma trial_rejects_energy k tmp1 evals evecs (s : state) ridge
      tmp2 ridge' b f' g' :
  ridge_loop k tmp1 evals (trust_radius s) ridge = Some (Ret (tmp2, ridge')) ->
  BaseOptimizer.fun_ dof_fun (base s) (vadd (x_old s) (mv evecs tmp2))
  = (b, (f', g')) ->
  f_old s < f' ->
  trial k tmp1 evals evecs s ridge
  = Some (Ret (Reject,
               set_trust_radius (trust_radius s * 0.5) (set_base b s),
               ridge')).
Proof.
  intros Hr Hf Hlt. unfold BFGSOptimizer.trial. rewrite Hr. cbv zeta.
  rewrite Hf. cbn [set_base f_old].
  now rewrite (proj2 (Rltb_true 0 (f' - f_old s))) by lra.
Qed.

Lemma trial_accepts k tmp1 evals evecs (s : state) ridge
      tmp2 ridge' b f' g' :
  ridge_loop k tmp1 evals (trust_radius s) ridge = Some (Ret (tmp2, ridge')) ->
  BaseOptimizer.fun_ dof_fun (base s) (vadd (x_old s) (mv evecs tmp2))
  = (b, (f', g')) ->
  f' <= f_old s ->
  small_radius s <= trust_radius s ->
  dot (mv evecs tmp2) g' <= 0 ->
  trial k tmp1 evals evecs s ridge
  = Some (Ret (Accept (vadd (x_old s) (mv evecs tmp2)) f' g',
               set_trust_radius (trust_radius s * 1.2) (set_base b s),
               ridge')).
Proof.
  intros Hr Hf Hle Hsm Hd. unfold BFGSOptimizer.trial. rewrite Hr. cbv zeta.
  rewrite Hf. cbn [set_base f_old trust_radius small_radius g_old].
  rewrite (proj2 (Rltb_false 0 (f' - f_old s))) by lra.
  rewrite (proj2 (Rltb_false (trust_radius s) (small_radius s))) by lra.
  now rewrite (proj2 (Rltb_false 0 (dot (mv evecs tmp2) g'))) by lra.
Qed.

(** C1: for the step [(x, f, g)] that [make_step] returns, with [delta_x]
    the step from [x_old] and [trust] the trust radius of the accepted
    trial (the returned state holds [trust*1.2]): [f <= f_old], or
    [trust < small_radius] and [|g| < |g_old|]; and [delta_x.g <= 0]. *)
Theorem accepted_step_test fuel (s : state) x' f' g' (s' : state) :
  make_step fuel s = Some (Ret (x', f', g', s')) ->
  exists delta_x trust,
    x' = vadd (x_old s) delta_x /\
    trust_radius s' = trust * 1.2 /\
    (f' <= f_old s \/
     (trust < small_radius s /\ norm g' < norm (g_old s))) /\
    dot delta_x g' <= 0.
Proof.
  intros Hs. apply make_step_ret in Hs.
  destruct Hs as (ridge0 & n & s1 & ridge1 & k & ridge2 & _ & Hr & Ha).
  apply rejected_radius in Hr. destruct Hr as [_ Hm]. simpl in Hm.
  apply trial_accept in Ha.
  destruct Ha as (tmp2 & _ & _ & Hx & Hf & _ & Hd & Ht & _).
  destruct Hm as (Hxo & Hfo & _).
  exists (mv (snd (eigh (hessian s))) tmp2), (trust_radius s1).
  rewrite <- Hxo, <- Hfo. auto.
Qed.

(** X5: the test as the program makes it: an accepted step never has a
    higher energy, and when the trust radius of its trial is below
    [small_radius] it never has a smaller gradient norm. *)
Theorem accepted_step_energy fuel (s : state) x' f' g' (s' : state) :
  make_step fuel s = Some (Ret (x', f', g', s')) ->
  f' <= f_old s /\
  ~ (trust_radius s' / 1.2 < small_radius s /\ norm g' < norm (g_old s)).
Proof.
  intros Hs. apply make_step_ret in Hs.
  destruct Hs as (ridge0 & n & s1 & ridge1 & k & ridge2 & _ & Hr & Ha).
  apply rejected_radius in Hr. destruct Hr as [_ Hm]. simpl in Hm.
  apply trial_accept in Ha.
  destruct Ha as (tmp2 & _ & _ & _ & Hf & Hg & _ & Ht & _).
  destruct Hm as (_ & Hfo & Hgo & _ & Hsm & _).
  rewrite <- Hfo, <- Hgo, <- Hsm. split; [exact Hf|].
  replace (trust_radius s' / 1.2) with (trust_radius s1) by (rewrite Ht; lra).
  exact Hg.
Qed.

Lemma make_step_same_model fuel (s : state) x' f' g' (s' : state) :
  make_step fuel s = Some (Ret (x', f', g', s')) -> same_model s s'.
Proof.
  intros Hs. apply make_step_ret in Hs.
  destruct Hs as (ridge0 & n & s1 & ridge1 & k & ridge2 & _ & Hr & Ha).
  apply rejected_radius in Hr. destruct Hr as [_ Hm]. simpl in Hm.
  apply trial_accept in Ha.
  destruct Ha as (tmp2 & _ & _ & _ & _ & _ & _ & _ & Hm').
  eapply same_model_trans; eauto.
Qed.

(** C6, as the program has it: [n] consecutive rejections multiply the
    trust radius by [0.5^n], and the accepted trial that follows them
    multiplies it by 1.2; when [make_step] returns after [n] rejections the
    trust radius is [1.2 * 0.5^n] times its value at the start of the
    call. *)
Theorem trust_radius_after_make_step :
  (forall tmp1 evals evecs n (c c' : state * R),
     rejected tmp1 evals evecs n c c' ->
     trust_radius (fst c') = 0.5 ^ n * trust_radius (fst c)) /\
  (forall fuel (s : state) x' f' g' (s' : state),
     make_step fuel s = Some (Ret (x', f', g', s')) ->
     exists ridge0 n s1 ridge1,
       rejected (vopp (mv (transpose (snd (eigh (hessian s)))) (g_old s)))
                (fst (eigh (hessian s))) (snd (eigh (hessian s)))
                n (s, ridge0) (s1, ridge1) /\
       trust_radius s' = 1.2 * (0.5 ^ n * trust_radius s)).
Proof.
  split.
  - intros tmp1 evals evecs n c c' Hr. now apply rejected_radius in Hr.
  - intros fuel s x' f' g' s' Hs. apply make_step_ret in Hs.
    destruct Hs as (ridge0 & n & s1 & ridge1 & k & ridge2 & _ & Hr & Ha).
    exists ridge0, n, s1, ridge1. split; [exact Hr|].
    apply rejected_radius in Hr. destruct Hr as [Hr _]. simpl in Hr.
    apply trial_accept in Ha.
    destruct Ha as (tmp2 & _ & _ & _ & _ & _ & _ & Ht & _).
    rewrite Ht, Hr. lra.
Qed.

(** More fuel does not change what a loop returns. *)
Lemma ridge_loop_fuel k k' tmp1 evals trust ridge r :
  ridge_loop k tmp1 evals trust ridge = Some r -> (k <= k')%nat ->
  ridge_loop k' tmp1 evals trust ridge = Some r.
Proof.
  revert k' ridge. induction k as [|k IH]; intros k' ridge; [discriminate|].
  destruct k' as [|k']; [lia|]. intros Hr Hle.
  cbn [BFGSOptimizer.ridge_loop] in Hr |- *. cbv zeta in Hr |- *.
  assert (Hgrow :
            match grow_ridge evals ridge with
            | Ret ridge' => ridge_loop k tmp1 evals trust ridge'
            | Raise e => Some (Raise e)
            end = Some r ->
            match grow_ridge evals ridge with
            | Ret ridge' => ridge_loop k' tmp1 evals trust ridge'
            | Raise e => Some (Raise e)
            end = Some r).
  { destruct (grow_ridge evals ridge) as [ridge'|e]; [|auto].
    intros H. apply IH; [exact H | lia]. }
  destruct (all_finite (eigen_step tmp1 evals ridge)) as [tmp2|]; [|auto].
  destruct (Rltb (norm tmp2) trust); auto.
Qed.

Lemma trial_fuel k k' tmp1 evals evecs (s : state) ridge r :
  trial k tmp1 evals evecs s ridge = Some r -> (k <= k')%nat ->
  trial k' tmp1 evals evecs s ridge = Some r.
Proof.
  unfold BFGSOptimizer.trial. intros Ht Hle.
  destruct (ridge_loop k tmp1 evals (trust_radius s) ridge) as [o|] eqn:Er;
    [|discriminate].
  now rewrite (ridge_loop_fuel _ _ _ _ _ _ _ Er Hle).
Qed.

Lemma trust_loop_fuel fuel fuel' tmp1 evals evecs (s : state) ridge r :
  trust_loop fuel tmp1 evals evecs s ridge = Some r -> (fuel <= fuel')%nat ->
  trust_loop fuel' tmp1 evals evecs s ridge = Some r.
Proof.
  revert fuel' s ridge. induction fuel as [|fuel IH]; intros fuel' s ridge;
    [discriminate|].
  destruct fuel' as [|fuel']; [lia|]. intros Hl Hle.
  cbn [BFGSOptimizer.trust_loop] in Hl |- *.
  destruct (trial fuel tmp1 evals evecs s ridge) as [o|] eqn:Et;
    [|discriminate].
  rewrite (trial_fuel _ fuel' _ _ _ _ _ _ Et) by lia.
  destruct o as [[[[xa fa ga|] s1] ridge1]|e]; auto.
  apply IH; [exact Hl | lia].
Qed.

(** Rejected trials followed by an accepted one make the outer loop
    return the accepted step. *)
Lemma rejected_then_accepted tmp1 evals evecs n (c c' : state * R) k
      x' f' g' (s' : state) ridge2 :
  rejected tmp1 evals evecs n c c' ->
  trial k tmp1 evals evecs (fst c') (snd c')
  = Some (Ret (Accept x' f' g', s', ridge2)) ->
  exists fuel0,
    forall fuel, (fuel0 <= fuel)%nat ->
      trust_loop fuel tmp1 evals evecs (fst c) (snd c)
      = Some (Ret (x', f', g', s')).
Proof.
  induction 1 as [c|n k0 s ridge s1 ridge1 c Ht _ IH]; intros Ha.
  - exists (S k). intros [|fuel] Hle; [lia|].
    cbn [BFGSOptimizer.trust_loop].
    now rewrite (trial_fuel _ fuel _ _ _ _ _ _ Ha) by lia.
  - destruct (IH Ha) as [fuel1 Hl]. exists (S (Nat.max k0 fuel1)).
    intros [|fuel] Hle; [lia|].
    cbn [BFGSOptimizer.trust_loop fst snd].
    rewrite (trial_fuel _ fuel _ _ _ _ _ _ Ht) by lia.
    apply Hl. lia.
Qed.

(** C7: a rejected trial multiplies the trust radius by 0.5, leaves
    [x_old], [f_old], [g_old] and the Hessian model as they are, and the
    loop goes on with the next trial: when that trial is accepted, the
    loop returns its step, taken within the halved radius, and after any
    number of rejections followed by an acceptance [make_step] returns
    the accepted step.  What [make_step] returns is always the step of an
    accepted trial, and the call as a whole leaves the four fields as
    they are; [propagate] is what moves [x], [f] and [g] to [x_old],
    [f_old] and [g_old], and it returns whenever the Hessian update and
    [make_step] do. *)
Theorem rejection_halves_and_retries :
  (forall k tmp1 evals evecs (s : state) ridge (s1 : state) ridge1,
     trial k tmp1 evals evecs s ridge = Some (Ret (Reject, s1, ridge1)) ->
     trust_radius s1 = trust_radius s * 0.5 /\
     x_old s1 = x_old s /\ f_old s1 = f_old s /\ g_old s1 = g_old s /\
     hessian s1 = hessian s /\
     trust_loop (S k) tmp1 evals evecs s ridge
     = trust_loop k tmp1 evals evecs s1 ridge1 /\
     (forall k' x' f' g' (s2 : state) ridge2,
        trial k' tmp1 evals evecs s1 ridge1
        = Some (Ret (Accept x' f' g', s2, ridge2)) ->
        (forall fuel, (S (S (Nat.max k k')) <= fuel)%nat ->
           trust_loop fuel tmp1 evals evecs s ridge
           = Some (Ret (x', f', g', s2))) /\
        trust_radius s2 = trust_radius s * 0.5 * 1.2 /\
        x_old s2 = x_old s /\ f_old s2 = f_old s /\ g_old s2 = g_old s /\
        hessian s2 = hessian s /\
        exists tmp2,
          norm tmp2 < trust_radius s * 0.5 /\
          x' = vadd (x_old s) (mv evecs tmp2))) /\
  (forall n (s : state) evals evecs ridge0 (s1 : state) ridge1 k
          x' f' g' (s' : state) ridge2,
     eigh (hessian s) = (evals, evecs) ->
     initial_ridge evals = Ret ridge0 ->
     rejected (vopp (mv (transpose evecs) (g_old s))) evals evecs
              n (s, ridge0) (s1, ridge1) ->
     trial k (vopp (mv (transpose evecs) (g_old s))) evals evecs s1 ridge1
     = Some (Ret (Accept x' f' g', s', ridge2)) ->
     exists fuel0,
       forall fuel, (fuel0 <= fuel)%nat ->
         make_step fuel s = Some (Ret (x', f', g', s'))) /\
  (forall fuel (s : state) x' f' g' (s' : state),
     make_step fuel s = Some (Ret (x', f', g', s')) ->
     (exists tmp1 evals evecs ridge0 n s1 ridge1 k ridge2,
        rejected tmp1 evals evecs n (s, ridge0) (s1, ridge1) /\
        trial k tmp1 evals evecs s1 ridge1
        = Some (Ret (Accept x' f' g', s', ridge2))) /\
     x_old s' = x_old s /\ f_old s' = f_old s /\ g_old s' = g_old s /\
     hessian s' = hessian s) /\
  (forall fuel (s s' : state) stop,
     propagate fuel s = Some (Ret (s', stop)) ->
     x_old s' = x s /\ f_old s' = f s /\ g_old s' = g s) /\
  (forall fuel (s : state) h x' f' g' (s2 : state),
     BFGSHessianModel.update (hessian s) (vsub (x s) (x_old s))
                             (vsub (g s) (g_old s)) = Ret h ->
     make_step fuel
       (mk (base s) (x s) (f s) (g s) h (trust_radius s) (small_radius s)
           (x s) (f s) (g s))
     = Some (Ret (x', f', g', s2)) ->
     exists (s' : state) stop,
       propagate fuel s = Some (Ret (s', stop)) /\
       x_old s' = x s /\ f_old s' = f s /\ g_old s' = g s /\
       hessian s' = h /\ x s' = x' /\ f s' = f' /\ g s' = g').
Proof.
  split; [|split; [|split]].
  - intros k tmp1 evals evecs s ridge s1 ridge1 Ht.
    destruct (trial_reject _ _ _ _ _ _ _ _ Ht)
      as (Hr & Hx & Hf & Hg & Hh & _).
    do 5 (split; [assumption|]). split; [simpl; now rewrite Ht|].
    intros k' x' f' g' s2 ridge2 Ha. split.
    + intros [|[|fuel]] Hle; try lia.
      cbn [BFGSOptimizer.trust_loop].
      rewrite (trial_fuel _ (S fuel) _ _ _ _ _ _ Ht) by lia.
      now rewrite (trial_fuel _ fuel _ _ _ _ _ _ Ha) by lia.
    + destruct (trial_accept _ _ _ _ _ _ _ _ _ _ _ Ha)
        as (tmp2 & _ & Hn & Hx' & _ & _ & _ & Ht2 & Hm).
      destruct Hm as (Hx2 & Hf2 & Hg2 & Hh2 & _).
      split; [rewrite Ht2, Hr; reflexivity|].
      do 4 (split; [congruence|]).
      exists tmp2. split; [now rewrite <- Hr | now rewrite <- Hx].
  - intros n s evals evecs ridge0 s1 ridge1 k x' f' g' s' ridge2
           He Hi Hr Ha.
    destruct (rejected_then_accepted _ _ _ _ _ _ _ _ _ _ _ _ Hr Ha)
      as [fuel0 Hl].
    exists fuel0. intros fuel Hle.
    rewrite (make_step_unfold _ _ _ _ _ He Hi). now apply Hl.
  - intros fuel s x' f' g' s' Hs. split.
    + apply make_step_ret in Hs.
      destruct Hs as (ridge0 & n & s1 & ridge1 & k & ridge2 & _ & Hr & Ha).
      do 9 eexists. split; [exact Hr | exact Ha].
    + apply make_step_same_model in Hs.
      destruct Hs as (Hx & Hf & Hg & Hh & _). auto.
  - split.
    + intros fuel s s' stop. unfold BFGSOptimizer.propagate.
      destruct (BFGSHessianModel.update _ _ _) as [h|e]; [|discriminate].
      destruct (make_step fuel _) as [[[[[x' f'] g'] s2]|e]|] eqn:Es;
        try discriminate.
      apply make_step_same_model in Es.
      destruct Es as (Hx & Hf & Hg & _). simpl in Hx, Hf, Hg.
      intros [= <- _]. simpl. auto.
    + intros fuel s h x' f' g' s2 Hu Hs. unfold BFGSOptimizer.propagate.
      rewrite Hu, Hs. cbv zeta.
      apply make_step_same_model in Hs.
      destruct Hs as (Hx & Hf & Hg & Hh & _). simpl in Hx, Hf, Hg, Hh.
      do 2 eexists. split; [reflexivity|]. simpl. auto 8.
Qed.




End BFGSOptimizerFacts.

(** ** Instances *)

Ltac arrays :=
  cbn [dot mv vsum map2 map fold_right vabs vadd vsub vopp mabs_entries
       flat_map app nth entry length fst snd].

Lemma norm_1 a : norm [a] = Rabs a.
Proof.
  unfold norm. arrays. replace (a * a + 0) with (Rsqr a) by (unfold Rsqr; lra).
  apply sqrt_Rsqr_abs.
Qed.

Lemma ridge_loop_1_stop k p e trust ridge q :
  e ^ 2 + ridge ^ 2 <> 0 -> p * e / (e ^ 2 + ridge ^ 2) = q ->
  Rabs q < trust ->
  BFGSOptimizer.ridge_loop (S k) [p] [e] trust ridge = Some (Ret ([q], ridge)).
Proof.
  intros Hd Hq Hlt. cbn [BFGSOptimizer.ridge_loop].
  cbn [BFGSOptimizer.eigen_step map2 all_finite]. unfold np_div.
  rewrite (proj2 (Reqb_false _ _) Hd). cbn [all_finite]. rewrite Hq.
  rewrite norm_1. now rewrite (proj2 (Rltb_true _ _) Hlt).
Qed.

Lemma ridge_loop_1_grow k p e trust ridge q r :
  e ^ 2 + ridge ^ 2 <> 0 -> p * e / (e ^ 2 + ridge ^ 2) = q ->
  trust <= Rabs q ->
  BFGSOptimizer.grow_ridge [e] ridge = Ret r ->
  BFGSOptimizer.ridge_loop (S k) [p] [e] trust ridge
  = BFGSOptimizer.ridge_loop k [p] [e] trust r.
Proof.
  intros Hd Hq Hge Hg. cbn [BFGSOptimizer.ridge_loop].
  cbn [BFGSOptimizer.eigen_step map2 all_finite]. unfold np_div.
  rewrite (proj2 (Reqb_false _ _) Hd). cbn [all_finite]. rewrite Hq.
  rewrite norm_1. rewrite (proj2 (Rltb_false _ _) Hge). now rewrite Hg.
Qed.

Lemma grow_ridge_1_zero e r :
  e <> 0 -> Rabs e = r -> BFGSOptimizer.grow_ridge [e] 0 = Ret r.
Proof.
  intros He Hr. unfold BFGSOptimizer.grow_ridge.
  rewrite (proj2 (Reqb_true 0 0) eq_refl).
  unfold nonzero. cbn [filter]. rewrite (proj2 (Reqb_false _ _) He).
  cbn [negb vabs map amin fold_left]. now rewrite Hr.
Qed.

Ltac decide_R :=
  repeat match goal with
  | |- context [Rltb ?a ?b] =>
    first [ rewrite (proj2 (Rltb_true a b)) by lra
          | rewrite (proj2 (Rltb_false a b)) by lra ]
  | |- context [Rleb ?a ?b] =>
    first [ rewrite (proj2 (Rleb_true a b)) by lra
          | rewrite (proj2 (Rleb_false a b)) by lra ]
  end.

(** The first trial from [Example.start] is rejected: the energy rises. *)
Lemma example_trial_rejected :
  BFGSOptimizer.trial Example.dof_fun 3 [1/2] [1] [[1]] Example.start 0
  = Some (Ret (Reject, Example.halved, 0)).
Proof.
  rewrite (trial_rejects_energy _ _ _ _ _ _ _ _ _ [1/2] 0
             (BaseOptimizer.mk tt (Some 1) tt []) 1 [0]).
  - unfold Example.halved, Example.start, BFGSOptimizer.set_trust_radius.
    cbn. replace (1 * 0.5) with 0.5 by lra. reflexivity.
  - apply ridge_loop_1_stop; [lra | field | cbn; rewrite Rabs_right; lra].
  - unfold BaseOptimizer.fun_, Example.dof_fun. cbn. decide_R. reflexivity.
  - cbn. lra.
Qed.

(** The second trial, with half the trust radius, is accepted. *)
Lemma example_trial_accepted :
  BFGSOptimizer.trial Example.dof_fun 2 [1/2] [1] [[1]] Example.halved 0
  = Some (Ret (Accept [1/4] (-1) [0], Example.accepted, 1)).
Proof.
  rewrite (trial_accepts _ _ _ _ _ _ _ _ _ [1/4] 1
             (BaseOptimizer.mk tt (Some (-1)) tt []) (-1) [0]).
  - unfold Example.halved, Example.accepted, BFGSOptimizer.set_trust_radius.
    cbn. replace (0 + (1 * (1 / 4) + 0)) with (1 / 4) by lra.
    replace (0.5 * 1.2) with 0.6 by lra. reflexivity.
  - cbn [BFGSOptimizer.trust_radius Example.halved].
    rewrite (ridge_loop_1_grow 1 (1/2) 1 _ 0 (1/2) 1);
      [| lra | field | rewrite Rabs_right; lra
       | apply grow_ridge_1_zero; [lra | rewrite Rabs_right; lra] ].
    apply ridge_loop_1_stop; [lra | field | rewrite Rabs_right; lra].
  - unfold BaseOptimizer.fun_, Example.dof_fun. cbn. decide_R. reflexivity.
  - cbn. lra.
  - cbn. lra.
  - cbn. lra.
Qed.

Lemma example_make_step :
  BFGSOptimizer.make_step Example.dof_fun Example.eigh 4 Example.start
  = Some (Ret ([1/4], -1, [0], Example.accepted)).
Proof.
  rewrite (make_step_unfold _ _ _ _ _ _ [1] [[1]] 0);
    [| reflexivity
     | unfold BFGSOptimizer.initial_ridge; cbn; now decide_R ].
  replace (vopp (mv (transpose [[1]]) (BFGSOptimizer.g_old Example.start)))
    with [1/2] by (cbn; f_equal; lra).
  cbn [BFGSOptimizer.trust_loop].
  rewrite example_trial_rejected, example_trial_accepted. reflexivity.
Qed.

(** [initialize] on the optimizer built from [x0 = 0] evaluates the energy
    there, which gives [Example.start], and takes the step above. *)
Lemma example_initialize :
  BFGSOptimizer.initialize unit unit (fun _ => [0]) Example.dof_fun
    (fun d => d) (fun b => b) Example.eigh 4 Example.base 1e-5
  = Some (Ret Example.initialized).
Proof.
  unfold BFGSOptimizer.initialize.
  replace (BaseOptimizer.fun_ Example.dof_fun Example.base
             ((fun _ : unit => [0]) (BaseOptimizer.dof Example.base)))
    with (BaseOptimizer.mk tt (Some 0) tt (@nil call), (0, [-1/2]))
    by (unfold BaseOptimizer.fun_, Example.dof_fun; cbn; now decide_R).
  cbv zeta.
  change (BFGSOptimizer.mk _ _ _ _ _ _ _ _ _ _) with Example.start.
  now rewrite example_make_step.
Qed.

(** [propagate] from [Example.initialized]: the Hessian model is updated
    to 2, and [make_step] accepts the zero step at the first trial. *)
Lemma example_update_initialized :
  BFGSHessianModel.update (BFGSOptimizer.hessian Example.initialized)
    (vsub (BFGSOptimizer.x Example.initialized)
          (BFGSOptimizer.x_old Example.initialized))
    (vsub (BFGSOptimizer.g Example.initialized)
          (BFGSOptimizer.g_old Example.initialized))
  = Ret [[2]] /\
  BFGSOptimizer.make_step Example.dof_fun Example.eigh 2
    (BFGSOptimizer.mk (BFGSOptimizer.base Example.initialized)
       (BFGSOptimizer.x Example.initialized)
       (BFGSOptimizer.f Example.initialized)
       (BFGSOptimizer.g Example.initialized) [[2]]
       (BFGSOptimizer.trust_radius Example.initialized)
       (BFGSOptimizer.small_radius Example.initialized)
       (BFGSOptimizer.x Example.initialized)
       (BFGSOptimizer.f Example.initialized)
       (BFGSOptimizer.g Example.initialized))
  = Some (Ret ([1/4], -1, [0], Example.propagated)).
Proof.
  split.
  - unfold BFGSHessianModel.update. cbn.
    rewrite !Rabs_right by lra. decide_R. do 3 f_equal. field.
  - rewrite (make_step_unfold _ _ _ _ _ _ [2] [[1]] 0);
      [| reflexivity
       | unfold BFGSOptimizer.initial_ridge; cbn; now decide_R ].
    cbn [BFGSOptimizer.g BFGSOptimizer.x BFGSOptimizer.f BFGSOptimizer.base
         BFGSOptimizer.trust_radius BFGSOptimizer.small_radius
         Example.initialized].
    replace (vopp (mv (transpose [[1]]) _)) with [0]
      by (cbn; f_equal; lra).
    cbn [BFGSOptimizer.trust_loop].
    rewrite (trial_accepts _ _ _ _ _ _ _ _ _ [0] 0
               (BaseOptimizer.mk tt (Some (-1)) tt
                  [CheckConvergence; IterativeInitialize]) (-1) [0]).
    + unfold Example.propagated, BFGSOptimizer.set_trust_radius. cbn.
      replace (1 / 4 + (1 * 0 + 0)) with (1 / 4) by lra.
      replace (0.6 * 1.2) with 0.72 by lra. reflexivity.
    + apply ridge_loop_1_stop; [lra | field | cbn; rewrite Rabs_R0; lra].
    + unfold BaseOptimizer.fun_, Example.dof_fun. cbn. decide_R. reflexivity.
    + cbn. lra.
    + cbn. lra.
    + cbn. lra.
Qed.

Lemma square_1 a : square 1 [[a]].
Proof. split; [reflexivity | repeat constructor]. Qed.

Lemma is_max_singleton a b : Rabs a = b -> is_max b [Rabs a].
Proof.
  intros ->. split; [now left | constructor; [lra | constructor]].
Qed.

Lemma update_skips_or_corrects_witness :
  exists h',
    BFGSHessianModel.update [[1]] [1] [2] = Ret h' /\
    entry h' 0 0 = BFGSHessianModel.secant_entry [[1]] [1] [2] 0 0.
Proof.
  destruct (update_skips_or_corrects 1 [[1]] [1] [2] 1 1 2) as [_ Hc].
  - apply square_1.
  - reflexivity.
  - reflexivity.
  - apply is_max_singleton. rewrite Rabs_right; lra.
  - apply is_max_singleton. arrays. rewrite Rabs_right; lra.
  - apply is_max_singleton. rewrite Rabs_right; lra.
  - destruct Hc as (h' & Hu & _ & _ & He).
    + arrays. lra.
    + exists h'. split; [exact Hu | apply He; lia].
Defined.

Lemma update_keeps_symmetry_witness :
  symmetric (BFGSHessianModel.stored [[1]]
               (BFGSHessianModel.update [[1]] [1] [2])).
Proof.
  apply (proj1 (update_keeps_symmetry 1)).
  - apply square_1.
  - reflexivity.
  - reflexivity.
  - reflexivity.
Defined.


Lemma accepted_step_test_witness :
  exists delta_x trust,
    [1/4] = vadd (BFGSOptimizer.x_old Example.start) delta_x /\
    BFGSOptimizer.trust_radius Example.accepted = trust * 1.2 /\
    (-1 <= BFGSOptimizer.f_old Example.start \/
     (trust < BFGSOptimizer.small_radius Example.start /\
      norm [0] < norm (BFGSOptimizer.g_old Example.start))) /\
    dot delta_x [0] <= 0.
Proof.
  exact (accepted_step_test unit unit Example.dof_fun Example.eigh 4
           Example.start [1/4] (-1) [0] Example.accepted example_make_step).
Defined.


(** C6, as it is stated, fails on the run from [Example.start]: the first
    trial is rejected, the second accepted, and the trust radius ends at
    0.6, which is not 1.2 times the 1 it started from. *)
Lemma trust_radius_not_1_2_times_start :
  BFGSOptimizer.make_step Example.dof_fun Example.eigh 4 Example.start
  = Some (Ret ([1/4], -1, [0], Example.accepted)) /\
  BFGSOptimizer.trust_radius Example.accepted
  <> 1.2 * BFGSOptimizer.trust_radius Example.start.
Proof.
  split; [apply example_make_step | cbn; lra].
Qed.

Lemma trust_radius_after_make_step_witness :
  exists ridge0 n s1 ridge1,
    BFGSOptimizer.rejected Example.dof_fun
      (vopp (mv (transpose (snd (Example.eigh
                                   (BFGSOptimizer.hessian Example.start))))
                (BFGSOptimizer.g_old Example.start)))
      (fst (Example.eigh (BFGSOptimizer.hessian Example.start)))
      (snd (Example.eigh (BFGSOptimizer.hessian Example.start)))
      n (Example.start, ridge0) (s1, ridge1) /\
    BFGSOptimizer.trust_radius Example.accepted
    = 1.2 * (0.5 ^ n * BFGSOptimizer.trust_radius Example.start).
Proof.
  exact (proj2 (trust_radius_after_make_step unit unit Example.dof_fun
                  Example.eigh)
           4%nat Example.start [1/4] (-1) [0] Example.accepted
           example_make_step).
Defined.

Lemma rejection_halves_and_retries_witness :
  (BFGSOptimizer.trust_radius Example.halved
   = BFGSOptimizer.trust_radius Example.start * 0.5 /\
   BFGSOptimizer.x_old Example.halved = BFGSOptimizer.x_old Example.start /\
   BFGSOptimizer.f_old Example.halved = BFGSOptimizer.f_old Example.start /\
   BFGSOptimizer.g_old Example.halved = BFGSOptimizer.g_old Example.start /\
   BFGSOptimizer.hessian Example.halved
   = BFGSOptimizer.hessian Example.start) /\
  (BFGSOptimizer.trust_loop Example.dof_fun 5 [1/2] [1] [[1]] Example.start 0
   = Some (Ret ([1/4], -1, [0], Example.accepted)) /\
   BFGSOptimizer.trust_radius Example.accepted
   = BFGSOptimizer.trust_radius Example.start * 0.5 * 1.2 /\
   exists tmp2,
     norm tmp2 < BFGSOptimizer.trust_radius Example.start * 0.5 /\
     [1/4] = vadd (BFGSOptimizer.x_old Example.start) (mv [[1]] tmp2)) /\
  (exists fuel0,
     forall fuel, (fuel0 <= fuel)%nat ->
       BFGSOptimizer.make_step Example.dof_fun Example.eigh fuel Example.start
       = Some (Ret ([1/4], -1, [0], Example.accepted))) /\
  (exists s' stop,
     BFGSOptimizer.propagate Example.dof_fun (fun d => d) (fun _ => false)
       (fun b => b) Example.eigh 2 Example.initialized
     = Some (Ret (s', stop)) /\
     BFGSOptimizer.x_old s' = BFGSOptimizer.x Example.initialized /\
     BFGSOptimizer.f_old s' = BFGSOptimizer.f Example.initialized /\
     BFGSOptimizer.g_old s' = BFGSOptimizer.g Example.initialized).
Proof.
  destruct (rejection_halves_and_retries unit unit Example.dof_fun
              (fun d => d) (fun _ => false) (fun b => b) Example.eigh)
    as (Hreject & Hchain & _ & _ & Hpropagate).
  destruct (Hreject 3%nat [1/2] [1] [[1]] Example.start 0 Example.halved 0
              example_trial_rejected)
    as (Hr & Hx & Hf & Hg & Hh & _ & Hretry).
  destruct (Hretry 2%nat [1/4] (-1) [0] Example.accepted 1
              example_trial_accepted)
    as (Hloop & Ht & _ & _ & _ & _ & Hstep).
  split; [auto|]. split; [|split].
  - split; [apply Hloop; simpl; lia|]. split; [exact Ht | exact Hstep].
  - apply (Hchain 1%nat Example.start [1] [[1]] 0 Example.halved 0 2%nat
             [1/4] (-1) [0] Example.accepted 1).
    + reflexivity.
    + unfold BFGSOptimizer.initial_ridge. cbn. now decide_R.
    + replace (vopp (mv (transpose [[1]])
                        (BFGSOptimizer.g_old Example.start)))
        with [1/2] by (cbn; f_equal; lra).
      econstructor; [apply example_trial_rejected | constructor].
    + replace (vopp (mv (transpose [[1]])
                        (BFGSOptimizer.g_old Example.start)))
        with [1/2] by (cbn; f_equal; lra).
      apply example_trial_accepted.
  - destruct example_update_initialized as [Hu Hs].
    destruct (Hpropagate 2%nat Example.initialized [[2]] [1/4] (-1) [0]
                Example.propagated Hu Hs)
      as (s' & stop & Hp & Hx' & Hf' & Hg' & _).
    exists s', stop. auto.
Defined.



Lemma propagate_failure_terminates_witness :
  snd (CGOptimizer.propagate (fun d => d) (fun _ => false) (fun b => b)
         vec Example.Minimizer_propagate (fun m => m) ScreenLog.medium
         Example.cg) = true.
Proof.
  apply (propagate_failure_terminates unit unit vec (fun d => d)
           (fun _ => false) (fun b => b) Example.Minimizer_propagate
           (fun m => m) ScreenLog.medium Example.cg (vadd [0] [1])
           (BaseOptimizer.record MinimizerPropagate Example.base)).
  reflexivity.
Defined.

Lemma propagate_overwrites_x_witness :
  CGOptimizer.x
    (fst (CGOptimizer.propagate (fun d => d) (fun _ => false) (fun b => b)
            vec Example.Minimizer_propagate (fun m => m) ScreenLog.medium
            Example.cg))
  = Some (vadd [0] [1]).
Proof.
  apply (propagate_overwrites_x unit unit vec (fun d => d)
           (fun _ => false) (fun b => b) Example.Minimizer_propagate
           (fun m => m) ScreenLog.medium Example.cg (vadd [0] [1])
           (BaseOptimizer.record MinimizerPropagate Example.base) false).
  reflexivity.
Defined.

(** ** More on BFGSHessianModel.update *)

Lemma dot_comm u v : dot u v = dot v u.
Proof.
  revert v. induction u as [|a u IH]; intros [|b v]; unfold dot in *;
    simpl; auto.
  rewrite IH. lra.
Qed.

Lemma amax_abs_nonneg l m : amax (vabs l) = Some m -> 0 <= m.
Proof.
  intros Hm. apply amax_is_max in Hm. destruct Hm as [Hin _].
  apply in_map_iff in Hin. destruct Hin as (a & <- & _). apply Rabs_pos.
Qed.

Lemma amax_mabs_nonneg M m : amax (mabs_entries M) = Some m -> 0 <= m.
Proof.
  intros Hm. apply amax_is_max in Hm. destruct Hm as [Hin _].
  unfold mabs_entries in Hin. apply in_flat_map in Hin.
  destruct Hin as (row & _ & Hin).
  apply in_map_iff in Hin. destruct Hin as (a & <- & _). apply Rabs_pos.
Qed.

(** What [update] has found when it changes the matrix: both denominators
    are positive, and the stored matrix is the corrected one. *)
Lemma update_changes hessian dx dg h' :
  BFGSHessianModel.update hessian dx dg = Ret h' ->
  h' = hessian \/
  (0 < dot dx (mv hessian dx) /\ 0 < dot dg dx /\
   h' = madd (msub hessian
                (mdiv (outer (mv hessian dx) (mv hessian dx))
                      (dot dx (mv hessian dx))))
             (mdiv (outer dg dg) (dot dg dx))).
Proof.
  unfold BFGSHessianModel.update.
  destruct (amax (mabs_entries hessian)) as [hmax|] eqn:Eh; [|discriminate].
  destruct (amax (vabs (mv hessian dx))) as [tmpmax|] eqn:Et;
    [|discriminate].
  apply amax_mabs_nonneg in Eh. apply amax_abs_nonneg in Et.
  destruct (Rleb _ _) eqn:E1; [intros [= <-]; now left|].
  destruct (amax (vabs dg)) as [dgmax|] eqn:Eg; [|discriminate].
  apply amax_abs_nonneg in Eg.
  destruct (Rleb (hmax * dot dg dx) _) eqn:E2; [intros [= <-]; now left|].
  apply Rleb_false in E1, E2. intros [= <-]. right.
  repeat split; auto; nra.
Qed.

(** The row [i] of the corrected matrix, applied to a vector [w]. *)
Lemma mv_rank2 n hessian dx dg d1 d2 w i :
  square n hessian -> length dg = n -> length w = n -> (i < n)%nat ->
  nth i (mv (madd (msub hessian
                     (mdiv (outer (mv hessian dx) (mv hessian dx)) d1))
                  (mdiv (outer dg dg) d2)) w) 0
  = nth i (mv hessian w) 0
    - nth i (mv hessian dx) 0 * dot (mv hessian dx) w / d1
    + nth i dg 0 * dot dg w / d2.
Proof.
  intros HH Hg Hw Hi.
  assert (Ht : length (mv hessian dx) = n) by (rewrite mv_length; apply HH).
  pose proof (square_rank2 n hessian dx dg d1 d2 HH Hg) as Hsq.
  set (h' := madd _ _) in *.
  unfold mv at 1. rewrite (nth_map_in _ _ _ []) by (destruct Hsq; lia).
  rewrite (dot_nth n) by (auto; now apply square_row).
  rewrite (vsum_map_ext _
    (fun j => entry hessian i j * nth j w 0
              + (- (nth i (mv hessian dx) 0 / d1)
                 * (nth j (mv hessian dx) 0 * nth j w 0)
                 + nth i dg 0 / d2 * (nth j dg 0 * nth j w 0)))).
  - rewrite !vsum_map_plus, !vsum_map_scal.
    rewrite <- (dot_nth n (mv hessian dx) w) by auto.
    rewrite <- (dot_nth n dg w) by auto.
    replace (vsum (map (fun j => entry hessian i j * nth j w 0) (seq 0 n)))
      with (nth i (mv hessian w) 0).
    + unfold Rdiv. ring.
    + unfold mv. rewrite (nth_map_in _ _ _ []) by (destruct HH; lia).
      apply (dot_nth n); auto. now apply square_row.
  - intros j Hj. apply in_seq in Hj.
    change (nth j (nth i h' []) 0) with (entry h' i j).
    unfold h'. rewrite (entry_rank2 n) by (auto; lia).
    unfold Rdiv. ring.
Qed.

(** X1: when [update(dx, dg)] returns, the stored matrix is the one it
    had, or it satisfies the secant equation [H.dx = dg]. *)
Theorem update_secant_equation n hessian dx dg h' :
  square n hessian -> length dx = n -> length dg = n ->
  BFGSHessianModel.update hessian dx dg = Ret h' ->
  h' = hessian \/ mv h' dx = dg.
Proof.
  intros HH Hx Hg Hu. apply update_changes in Hu.
  destruct Hu as [Hu|(Hd1 & Hd2 & ->)]; [now left | right].
  apply (list_ext 0).
  - rewrite mv_length.
    destruct (square_rank2 n hessian dx dg (dot dx (mv hessian dx))
                (dot dg dx) HH Hg) as [-> _].
    now symmetry.
  - intros i Hi. rewrite mv_length in Hi.
    assert (Hin : (i < n)%nat).
    { destruct (square_rank2 n hessian dx dg (dot dx (mv hessian dx))
                  (dot dg dx) HH Hg) as [Hl _]. now rewrite <- Hl. }
    rewrite (mv_rank2 n) by auto.
    rewrite (dot_comm (mv hessian dx) dx). field. lra.
Qed.

(** X2: [update(dx, dg)] leaves the stored matrix as it is whenever the
    curvature along the step is not positive, [dx.H.dx <= 0] or
    [dg.dx <= 0]: it never divides by a denominator that is zero or
    negative. *)
Theorem update_skips_nonpositive_curvature hessian dx dg :
  dot dx (mv hessian dx) <= 0 \/ dot dg dx <= 0 ->
  BFGSHessianModel.stored hessian (BFGSHessianModel.update hessian dx dg)
  = hessian.
Proof.
  intros Hc.
  destruct (BFGSHessianModel.update hessian dx dg) as [h'|e] eqn:Hu;
    [|reflexivity].
  simpl. apply update_changes in Hu.
  destruct Hu as [Hu|(Hd1 & Hd2 & _)]; [exact Hu | lra].
Qed.

(** *** Positive definiteness *)

Lemma vsum_swap {A B : Type} (f : A -> B -> R) l l' :
  vsum (map (fun a => vsum (map (fun b => f a b) l')) l)
  = vsum (map (fun b => vsum (map (fun a => f a b) l)) l').
Proof.
  induction l as [|a l IH]; simpl.
  - now rewrite vsum_map_zero.
  - now rewrite IH, <- vsum_map_plus.
Qed.

Lemma nth_mv n M v i :
  square n M -> length v = n -> (i < n)%nat ->
  nth i (mv M v) 0
  = vsum (map (fun j => entry M i j * nth j v 0) (seq 0 n)).
Proof.
  intros HM Hv Hi. unfold mv.
  rewrite (nth_map_in _ _ _ []) by (destruct HM; lia).
  apply (dot_nth n); auto. now apply square_row.
Qed.

Lemma bilinear_sum n M u v :
  square n M -> length u = n -> length v = n ->
  dot u (mv M v)
  = vsum (map (fun i =>
       vsum (map (fun j => nth i u 0 * entry M i j * nth j v 0) (seq 0 n)))
     (seq 0 n)).
Proof.
  intros HM Hu Hv.
  rewrite (dot_nth n) by (auto; rewrite mv_length; apply HM).
  apply vsum_map_ext. intros i Hi. apply in_seq in Hi.
  rewrite (nth_mv n) by (auto; lia).
  rewrite <- vsum_map_scal. apply vsum_map_ext. intros j _. ring.
Qed.

Lemma bilinear_symmetric n M u v :
  square n M -> symmetric M -> length u = n -> length v = n ->
  dot u (mv M v) = dot v (mv M u).
Proof.
  intros HM Hs Hu Hv. rewrite !(bilinear_sum n) by auto.
  rewrite vsum_swap. apply vsum_map_ext. intros i Hi. apply in_seq in Hi.
  apply vsum_map_ext. intros j Hj. apply in_seq in Hj.
  rewrite (proj1 (symmetric_entries n M HM) Hs j i) by lia. ring.
Qed.

Lemma nth_combination t u v i :
  length u = length v ->
  nth i (map2 (fun a b => a + t * b) u v) 0 = nth i u 0 + t * nth i v 0.
Proof.
  revert v i. induction u as [|a u IH]; intros [|b v] [|i] Hl;
    simpl in *; try discriminate; try lra.
  apply IH. lia.
Qed.

Lemma dot_combination n t u v w :
  length u = n -> length v = n -> length w = n ->
  dot (map2 (fun a b => a + t * b) u v) w = dot u w + t * dot v w.
Proof.
  intros Hu Hv Hw.
  rewrite !(dot_nth n)
    by (auto; rewrite map2_length, Hu, Hv; apply Nat.min_id).
  rewrite <- vsum_map_scal, <- vsum_map_plus.
  apply vsum_map_ext. intros i _.
  rewrite nth_combination by congruence. ring.
Qed.

Lemma quadratic_combination n M t u v :
  square n M -> symmetric M -> length u = n -> length v = n ->
  let w := map2 (fun a b => a + t * b) u v in
  dot w (mv M w)
  = dot u (mv M u) + 2 * t * dot u (mv M v) + t * t * dot v (mv M v).
Proof.
  intros HM Hs Hu Hv w.
  assert (Hw : length w = n)
    by (unfold w; rewrite map2_length, Hu, Hv; apply Nat.min_id).
  assert (Hl : forall x, length (mv M x) = n)
    by (intros x; rewrite mv_length; apply HM).
  unfold w at 1. rewrite (dot_combination n) by auto.
  rewrite (bilinear_symmetric n M u w), (bilinear_symmetric n M v w) by auto.
  unfold w. rewrite !(dot_combination n) by auto.
  rewrite (bilinear_symmetric n M v u) by auto. ring.
Qed.

Lemma zero_or_not (w : vec) :
  (forall i, nth i w 0 = 0) \/ (exists i, nth i w 0 <> 0).
Proof.
  induction w as [|a w [IH|[i IH]]].
  - left. intros [|i]; reflexivity.
  - destruct (Req_dec a 0) as [->|Ha].
    + left. intros [|i]; simpl; auto.
    + right. now exists 0%nat.
  - right. now exists (S i).
Qed.

Lemma dot_zero_l w x : (forall i, nth i w 0 = 0) -> dot w x = 0.
Proof.
  revert x. induction w as [|a w IH]; intros [|b x] Hz; unfold dot in *;
    simpl; auto.
  rewrite (Hz 0%nat : a = 0). rewrite IH; [lra|].
  intros i. apply (Hz (S i)).
Qed.

(** The matrix that [update] stores is positive definite when the one it
    had is symmetric and positive definite. *)
Lemma rank2_positive_definite n hessian dx dg :
  square n hessian -> symmetric hessian -> positive_definite n hessian ->
  length dx = n -> length dg = n ->
  0 < dot dx (mv hessian dx) -> 0 < dot dg dx ->
  positive_definite n
    (madd (msub hessian
             (mdiv (outer (mv hessian dx) (mv hessian dx))
                   (dot dx (mv hessian dx))))
          (mdiv (outer dg dg) (dot dg dx))).
Proof.
  intros HH Hs Hpd Hx Hg Hd1 Hd2 v Hv Hnz.
  set (d1 := dot dx (mv hessian dx)) in *.
  set (d2 := dot dg dx) in *.
  set (h' := madd _ _).
  assert (Ht : length (mv hessian dx) = n) by (rewrite mv_length; apply HH).
  assert (Hq : dot v (mv h' v)
               = dot v (mv hessian v)
                 - dot v (mv hessian dx) * dot v (mv hessian dx) / d1
                 + dot v dg * dot v dg / d2).
  { rewrite (dot_nth n v (mv h' v))
      by (auto; rewrite mv_length; apply square_rank2; auto).
    rewrite (vsum_map_ext _
      (fun i => nth i v 0 * nth i (mv hessian v) 0
                + (- (dot (mv hessian dx) v / d1)
                   * (nth i v 0 * nth i (mv hessian dx) 0)
                   + dot dg v / d2 * (nth i v 0 * nth i dg 0)))).
    - rewrite !vsum_map_plus, !vsum_map_scal.
      rewrite <- (dot_nth n v (mv hessian v))
        by (auto; rewrite mv_length; apply HH).
      rewrite <- (dot_nth n v (mv hessian dx)) by auto.
      rewrite <- (dot_nth n v dg) by auto.
      rewrite (dot_comm (mv hessian dx) v), (dot_comm dg v).
      unfold Rdiv. ring.
    - intros i Hi. apply in_seq in Hi. unfold h'.
      rewrite (mv_rank2 n) by (auto; lia). unfold Rdiv. ring. }
  rewrite Hq.
  set (t := - (dot v (mv hessian dx) / d1)).
  set (w := map2 (fun a b => a + t * b) v dx).
  assert (Hw : dot w (mv hessian w)
               = dot v (mv hessian v)
                 - dot v (mv hessian dx) * dot v (mv hessian dx) / d1).
  { unfold w. rewrite (quadratic_combination n) by auto.
    fold d1. unfold t. field. lra. }
  assert (Hsq : 0 <= dot v dg * dot v dg / d2).
  { apply Rmult_le_pos; [nra | left; now apply Rinv_0_lt_compat]. }
  destruct (zero_or_not w) as [Hz|Hw0].
  - assert (Hw' : dot w (mv hessian w) = 0) by now apply dot_zero_l.
    assert (Hvi : forall i, nth i v 0 = - t * nth i dx 0).
    { intros i. specialize (Hz i). unfold w in Hz.
      rewrite nth_combination in Hz by congruence. lra. }
    assert (Ht0 : t <> 0).
    { intros Ht0. destruct Hnz as [i Hi]. apply Hi.
      rewrite Hvi, Ht0. ring. }
    assert (Hvg : dot v dg = - t * d2).
    { unfold d2. rewrite (dot_comm dg dx).
      rewrite !(dot_nth n) by auto. rewrite <- vsum_map_scal.
      apply vsum_map_ext. intros i _. rewrite Hvi. ring. }
    rewrite <- Hw, Hw', Hvg.
    replace (0 + - t * d2 * (- t * d2) / d2) with (t * t * d2)
      by (field; lra).
    apply Rmult_lt_0_compat; [nra | exact Hd2].
  - assert (Hwl : length w = n)
      by (unfold w; rewrite map2_length, Hv, Hx; apply Nat.min_id).
    pose proof (Hpd w Hwl Hw0) as Hpos. lra.
Qed.

Lemma update_positive_definite n hessian dx dg :
  square n hessian -> symmetric hessian -> positive_definite n hessian ->
  length dg = n -> length dx = n ->
  positive_definite n
    (BFGSHessianModel.stored hessian
       (BFGSHessianModel.update hessian dx dg)).
Proof.
  intros HH Hs Hpd Hg Hx.
  destruct (BFGSHessianModel.update hessian dx dg) as [h'|e] eqn:Hu;
    [|exact Hpd].
  simpl. apply update_changes in Hu.
  destruct Hu as [->|(Hd1 & Hd2 & ->)]; [exact Hpd|].
  now apply rank2_positive_definite.
Qed.

Lemma mv_identity n v : length v = n -> mv (identity n) v = v.
Proof.
  intros Hv. apply (list_ext 0).
  - rewrite mv_length. destruct (square_identity n) as [-> _]. now symmetry.
  - intros i Hi. rewrite mv_length in Hi.
    destruct (square_identity n) as [Hl _]. rewrite Hl in Hi.
    rewrite (nth_mv n) by (auto using square_identity).
    rewrite (vsum_map_ext _
               (fun j => nth j v 0 * (if Nat.eqb j i then 1 else 0))).
    + now apply (vsum_delta n i (fun j => nth j v 0)).
    + intros j Hj. apply in_seq in Hj.
      rewrite entry_identity by lia. rewrite Nat.eqb_sym. ring.
Qed.

Lemma dot_self_pos v : (exists i, nth i v 0 <> 0) -> 0 < dot v v.
Proof.
  intros [i Hi]. revert i Hi.
  induction v as [|a v IH]; intros [|i] Hi; simpl in Hi;
    try (exfalso; now apply Hi).
  - change (dot (a :: v) (a :: v)) with (a * a + dot v v).
    pose proof (dot_self_nonneg v). nra.
  - change (dot (a :: v) (a :: v)) with (a * a + dot v v).
    specialize (IH i Hi). nra.
Qed.

Lemma identity_positive_definite n : positive_definite n (identity n).
Proof.
  intros v Hv Hnz. rewrite mv_identity by auto. now apply dot_self_pos.
Qed.

(** X3: [update(dx, dg)] keeps a symmetric positive definite matrix
    positive definite, whether it skips, corrects or raises; the model
    starts from the identity, so with exact arithmetic the stored matrix
    is positive definite after every sequence of updates. *)
Theorem update_keeps_positive_definite n :
  (forall hessian dx dg,
     square n hessian -> symmetric hessian -> positive_definite n hessian ->
     length dx = n -> length dg = n ->
     positive_definite n
       (BFGSHessianModel.stored hessian
          (BFGSHessianModel.update hessian dx dg))) /\
  (forall steps,
     Forall (fun step => length (fst step) = n /\ length (snd step) = n)
            steps ->
     positive_definite n
       (BFGSHessianModel.updates (BFGSHessianModel.init n) steps)).
Proof.
  split.
  - intros hessian dx dg HH Hs Hpd Hx Hg.
    now apply update_positive_definite.
  - intros steps Hsteps. unfold BFGSHessianModel.init.
    assert (Hinv : square n (identity n) /\ symmetric (identity n) /\
                   positive_definite n (identity n))
      by auto using square_identity, symmetric_identity,
                    identity_positive_definite.
    revert Hinv. generalize (identity n) as h.
    induction Hsteps as [|[dx dg] steps [Hx Hg] _ IH];
      intros h (Hsq & Hsym & Hpd); simpl in *; auto.
    apply IH. repeat split.
    + apply update_square; auto.
    + now apply update_square.
    + now apply (update_symmetric n).
    + now apply update_positive_definite.
Qed.

Lemma example_update :
  exists h', BFGSHessianModel.update [[1]] [1] [2] = Ret h'.
Proof.
  unfold BFGSHessianModel.update. cbn.
  replace (Rabs (1 * 1 + 0)) with 1 by (rewrite Rabs_right; lra).
  rewrite !Rabs_right by lra. decide_R. eauto.
Qed.

Lemma update_secant_equation_witness :
  exists h',
    BFGSHessianModel.update [[1]] [1] [2] = Ret h' /\
    (h' = [[1]] \/ mv h' [1] = [2]).
Proof.
  destruct example_update as [h' Hu]. exists h'. split; [exact Hu|].
  apply (update_secant_equation 1 [[1]] [1] [2] h').
  - apply square_1.
  - reflexivity.
  - reflexivity.
  - exact Hu.
Defined.

Lemma update_skips_nonpositive_curvature_witness :
  BFGSHessianModel.stored [[1]] (BFGSHessianModel.update [[1]] [0] [2])
  = [[1]].
Proof.
  apply update_skips_nonpositive_curvature. left. arrays. lra.
Defined.

Lemma update_keeps_positive_definite_witness :
  positive_definite 1
    (BFGSHessianModel.updates (BFGSHessianModel.init 1) [([1], [2])]).
Proof.
  apply (proj2 (update_keeps_positive_definite 1)).
  constructor; [split; reflexivity | constructor].
Defined.

(** ** More on BFGSOptimizer.make_step *)

Lemma grow_ridge_grows evals ridge r :
  0 <= ridge -> BFGSOptimizer.grow_ridge evals ridge = Ret r ->
  ridge <= r /\ 0 < r.
Proof.
  intros Hr. unfold BFGSOptimizer.grow_ridge.
  destruct (Reqb ridge 0) eqn:E.
  - apply Reqb_true in E. subst.
    destruct (amin (vabs (nonzero evals))) as [m|] eqn:Em; [|discriminate].
    intros [= <-]. apply smallest_nonzero_abs_amin in Em.
    destruct Em as [(e & _ & He & ->) _].
    pose proof (Rabs_pos_lt e He). lra.
  - apply Reqb_false in E. intros [= <-]. lra.
Qed.

(** X6: the inner loop only raises the ridge: the ridge with which it
    returns is at least the one it was given. *)
Theorem ridge_loop_raises_ridge k tmp1 evals trust ridge tmp2 ridge' :
  0 <= ridge ->
  BFGSOptimizer.ridge_loop k tmp1 evals trust ridge
  = Some (Ret (tmp2, ridge')) ->
  ridge <= ridge'.
Proof.
  revert ridge. induction k as [|k IH]; intros ridge Hr; [discriminate|].
  cbn [BFGSOptimizer.ridge_loop].
  assert (Hgrow :
    match BFGSOptimizer.grow_ridge evals ridge with
    | Ret r => BFGSOptimizer.ridge_loop k tmp1 evals trust r
    | Raise e => Some (Raise e)
    end = Some (Ret (tmp2, ridge')) -> ridge <= ridge').
  { destruct (BFGSOptimizer.grow_ridge evals ridge) as [r|e] eqn:Eg;
      [|discriminate].
    apply grow_ridge_grows in Eg; [|exact Hr]. intros Hl.
    apply IH in Hl; lra. }
  destruct (all_finite _) as [q|]; auto.
  destruct (Rltb _ _); auto.
  intros [= _ <-]. lra.
Qed.

Lemma dot_cons a u b v : dot (a :: u) (b :: v) = a * b + dot u v.
Proof. reflexivity. Qed.

Lemma regularised_step_shrinks tmp1 evals r r' q q' :
  0 <= r <= r' ->
  all_finite (BFGSOptimizer.eigen_step tmp1 evals r) = Some q ->
  all_finite (BFGSOptimizer.eigen_step tmp1 evals r') = Some q' ->
  dot q' q' <= dot q q.
Proof.
  intros Hr. unfold BFGSOptimizer.eigen_step.
  revert evals q q'. induction tmp1 as [|p tmp1 IH]; intros [|e evals] q q';
    cbn [map2 all_finite]; try (intros [= <-] [= <-]; lra).
  unfold np_div.
  destruct (Reqb (e ^ 2 + r ^ 2) 0) eqn:Ed; [discriminate|].
  destruct (Reqb (e ^ 2 + r' ^ 2) 0) eqn:Ed'; [discriminate|].
  apply Reqb_false in Ed, Ed'.
  destruct (all_finite (map2 _ tmp1 evals)) as [q0|] eqn:E0; [|discriminate].
  destruct (all_finite (map2 (fun p0 e0 => if Reqb (e0 ^ 2 + r' ^ 2) 0
                                         then None
                                         else Some (p0 * e0 / (e0 ^ 2 + r' ^ 2)))
                             tmp1 evals)) as [q0'|] eqn:E0';
    [|discriminate].
  intros [= <-] [= <-].
  specialize (IH evals q0 q0' E0 E0').
  rewrite !dot_cons.
  change (e * (e * 1) + r' * (r' * 1)) with (e ^ 2 + r' ^ 2).
  change (e * (e * 1) + r * (r * 1)) with (e ^ 2 + r ^ 2).
  set (d := e ^ 2 + r ^ 2) in *. set (d' := e ^ 2 + r' ^ 2) in *.
  assert (Hd : 0 < d) by (unfold d in *; nra).
  assert (Hdd : d <= d') by (unfold d, d'; nra).
  assert (Hi : 0 < / d' <= / d).
  { split; [apply Rinv_0_lt_compat; lra|].
    apply Rinv_le_contravar; lra. }
  assert (Hi2 : / d' * / d' <= / d * / d) by nra.
  assert (Hsq : 0 <= p * e * (p * e)) by nra.
  unfold Rdiv.
  replace (p * e * / d' * (p * e * / d'))
    with (p * e * (p * e) * (/ d' * / d')) by ring.
  replace (p * e * / d * (p * e * / d))
    with (p * e * (p * e) * (/ d * / d)) by ring.
  assert (Hm : p * e * (p * e) * (/ d' * / d')
               <= p * e * (p * e) * (/ d * / d))
    by (apply Rmult_le_compat_l; assumption).
  lra.
Qed.

(** X7: raising the ridge never lengthens the step: for ridges
    [0 <= r <= r'] at which the regularised step is finite, its norm at
    [r'] is at most its norm at [r]. *)
Theorem step_norm_decreases_with_ridge tmp1 evals r r' q q' :
  0 <= r <= r' ->
  all_finite (BFGSOptimizer.eigen_step tmp1 evals r) = Some q ->
  all_finite (BFGSOptimizer.eigen_step tmp1 evals r') = Some q' ->
  norm q' <= norm q.
Proof.
  intros Hr Hq Hq'. unfold norm. apply sqrt_le_1_alt.
  now apply (regularised_step_shrinks tmp1 evals r r').
Qed.

(** X8: for a spectrum of positive eigenvalues the ridge starts at 0, and
    when the quasi-Newton step [tmp1/evals] is shorter than the trust
    radius the inner loop returns it, with the ridge still 0. *)
Theorem newton_step_without_ridge k tmp1 evals trust :
  Forall (fun e => 0 < e) evals -> evals <> [] ->
  norm (map2 Rdiv tmp1 evals) < trust ->
  BFGSOptimizer.initial_ridge evals = Ret 0 /\
  BFGSOptimizer.ridge_loop (S k) tmp1 evals trust 0
  = Some (Ret (map2 Rdiv tmp1 evals, 0)).
Proof.
  intros Hpos Hne Hn. split.
  - unfold BFGSOptimizer.initial_ridge.
    destruct (amin evals) as [m|] eqn:Em.
    + apply amin_is_min in Em. destruct Em as [Hin _].
      rewrite Forall_forall in Hpos. specialize (Hpos m Hin).
      now rewrite (proj2 (Rleb_false m 0)) by lra.
    + destruct evals; [now contradiction Hne | discriminate Em].
  - cbn [BFGSOptimizer.ridge_loop].
    assert (Hf : all_finite (BFGSOptimizer.eigen_step tmp1 evals 0)
                 = Some (map2 Rdiv tmp1 evals)).
    { clear Hn Hne. unfold BFGSOptimizer.eigen_step. revert tmp1.
      induction Hpos as [|e evals He _ IH]; intros [|p tmp1];
        cbn [map2 all_finite]; auto.
      unfold np_div. rewrite (proj2 (Reqb_false (e ^ 2 + 0 ^ 2) 0)) by nra.
      rewrite IH. do 2 f_equal. field. lra. }
    rewrite Hf. now rewrite (proj2 (Rltb_true _ _) Hn).
Qed.

Section BFGSOptimizerMore.

  Variables DOF Iterative : Type.
  Variable dof_x0 : DOF -> vec.
  Variable dof_fun : DOF -> vec -> DOF * (R * vec).
  Variable dof_check_convergence : DOF -> DOF.
  Variable dof_converged : DOF -> bool.
  Variable Iterative_initialize :
    BaseOptimizer.state DOF Iterative -> BaseOptimizer.state DOF Iterative.
  Variable Iterative_propagate :
    BaseOptimizer.state DOF Iterative -> BaseOptimizer.state DOF Iterative.
  Variable eigh : matrix -> vec * matrix.

  Import BFGSOptimizer.

  Local Abbreviation state := (BFGSOptimizer.state DOF Iterative).
  Local Abbreviation trial := (BFGSOptimizer.trial dof_fun).
  Local Abbreviation make_step := (BFGSOptimizer.make_step dof_fun eigh).
  Local Abbreviation initialize :=
    (BFGSOptimizer.initialize DOF Iterative dof_x0 dof_fun
       dof_check_convergence Iterative_initialize eigh).
  Local Abbreviation propagate :=
    (BFGSOptimizer.propagate dof_fun dof_check_convergence dof_converged
       Iterative_propagate eigh).

Lemma fun_result (b b' : BaseOptimizer.state DOF Iterative) x0 f0 g0 :
  BaseOptimizer.fun_ dof_fun b x0 = (b', (f0, g0)) ->
  BaseOptimizer.epot b' = Some f0 /\
  snd (dof_fun (BaseOptimizer.dof b) x0) = (f0, g0).
Proof.
  unfold BaseOptimizer.fun_.
  destruct (dof_fun (BaseOptimizer.dof b) x0) as [d [e gx]].
  intros [= <- <- <-]. split; reflexivity.
Qed.

Lemma trial_accept_fun k tmp1 evals evecs (s : state) ridge x' f' g'
      (s' : state) ridge' :
  trial k tmp1 evals evecs s ridge = Some (Ret (Accept x' f' g', s', ridge')) ->
  BaseOptimizer.fun_ dof_fun (base s) x' = (base s', (f', g')).
Proof.
  unfold BFGSOptimizer.trial.
  destruct (ridge_loop k tmp1 evals (trust_radius s) ridge)
    as [[[tmp2 r]|e]|]; try discriminate.
  cbv zeta.
  destruct (BaseOptimizer.fun_ dof_fun (base s) _) as [b [f1 g1]] eqn:Ef.
  destruct (_ || _); [discriminate|].
  destruct (Rltb 0 (dot _ _)); [discriminate|].
  intros Heq. injection Heq as <- <- <- <- <-. exact Ef.
Qed.

(** What [make_step] returns, put together. *)
Lemma make_step_result fuel (s : state) x' f' g' (s' : state) :
  make_step fuel s = Some (Ret (x', f', g', s')) ->
  same_model s s' /\
  (exists n : nat, trust_radius s' = 1.2 * (0.5 ^ n * trust_radius s)) /\
  (exists tmp2, x' = vadd (x_old s) (mv (snd (eigh (hessian s))) tmp2)) /\
  f' <= f_old s /\
  BaseOptimizer.epot (base s') = Some f' /\
  (exists d, snd (dof_fun d x') = (f', g')).
Proof.
  intros Hs. pose proof (make_step_same_model _ _ _ _ _ _ _ _ _ _ Hs) as Hm.
  apply make_step_ret in Hs.
  destruct Hs as (ridge0 & n & s1 & ridge1 & k & ridge2 & _ & Hr & Ha).
  apply rejected_radius in Hr. destruct Hr as [Hr Hm1]. simpl in Hr, Hm1.
  pose proof (trial_accept_fun _ _ _ _ _ _ _ _ _ _ _ Ha) as Hf.
  apply fun_result in Hf. destruct Hf as [He Hd].
  apply trial_accept in Ha.
  destruct Ha as (tmp2 & _ & _ & Hx & Hle & _ & _ & Ht & _).
  destruct Hm1 as (Hxo & Hfo & _).
  repeat split; try apply Hm.
  - exists n. rewrite Ht, Hr. lra.
  - exists tmp2. now rewrite <- Hxo.
  - now rewrite <- Hfo.
  - exact He.
  - eauto.
Qed.

(** X9: the triple [(x, f, g)] that [make_step] returns is consistent:
    [f] and [g] are the energy and the gradient that [dof.fun] gave at
    [x], the trial that was accepted, and [epot] holds [f] (not the
    energy of a rejected trial). *)
Theorem make_step_returns_last_evaluation fuel (s : state) x' f' g'
        (s' : state) :
  make_step fuel s = Some (Ret (x', f', g', s')) ->
  BaseOptimizer.epot (base s') = Some f' /\
  exists d, snd (dof_fun d x') = (f', g').
Proof.
  intros Hs. apply make_step_result in Hs.
  destruct Hs as (_ & _ & _ & _ & He & Hd). auto.
Qed.

(** X10: the energy never rises from one iteration to the next: after
    [propagate] the new [f] is at most the previous one, which is now
    [f_old]; after [initialize] it is at most the energy at [x0]. *)
Theorem energy_never_rises :
  (forall fuel (s s' : state) stop,
     propagate fuel s = Some (Ret (s', stop)) ->
     f s' <= f s /\ f_old s' = f s) /\
  (forall fuel b small (s' : state),
     initialize fuel b small = Some (Ret s') ->
     f s' <= f_old s' /\
     f_old s' = fst (snd (dof_fun (BaseOptimizer.dof b)
                                  (dof_x0 (BaseOptimizer.dof b))))).
Proof.
  split.
  - intros fuel s s' stop. unfold BFGSOptimizer.propagate.
    destruct (BFGSHessianModel.update _ _ _) as [h|e]; [|discriminate].
    destruct (make_step fuel _) as [[[[[x' f'] g'] s2]|e]|] eqn:Es;
      try discriminate.
    apply make_step_result in Es.
    destruct Es as ((_ & Hfo & _) & _ & _ & Hle & _). simpl in Hfo, Hle.
    intros [= <- _]. simpl. split; [exact Hle | exact Hfo].
  - intros fuel b small s'. unfold BFGSOptimizer.initialize.
    destruct (BaseOptimizer.fun_ dof_fun b _) as [b1 [f0 g0]] eqn:Ef.
    apply fun_result in Ef. destruct Ef as [_ Hd].
    destruct (make_step fuel _) as [[[[[x' f'] g'] s2]|e]|] eqn:Es;
      try discriminate.
    apply make_step_result in Es.
    destruct Es as ((_ & Hfo & _) & _ & _ & Hle & _). simpl in Hfo, Hle.
    intros [= <-]. simpl. rewrite Hfo, Hd. split; [exact Hle | reflexivity].
Qed.

(** X11: when [eigh] returns as many eigenvectors as the matrix has rows
    and [dof.fun] returns gradients of the dimension of its argument,
    [initialize] gives a well-formed state (vectors of one dimension, a
    symmetric positive definite Hessian model, a positive trust radius)
    and [propagate] keeps the state well-formed. *)
Theorem well_formed_invariant n :
  (forall h, square n h -> length (snd (eigh h)) = n) ->
  (forall d x0, length x0 = n -> length (snd (snd (dof_fun d x0))) = n) ->
  (forall fuel b small (s' : state),
     length (dof_x0 (BaseOptimizer.dof b)) = n ->
     initialize fuel b small = Some (Ret s') -> well_formed n s') /\
  (forall fuel (s s' : state) stop,
     well_formed n s ->
     propagate fuel s = Some (Ret (s', stop)) -> well_formed n s').
Proof.
  intros Heigh Hgrad.
  assert (Hstep : forall fuel (s : state) x' f' g' (s2 : state),
            length (x_old s) = n -> length (g_old s) = n ->
            square n (hessian s) -> symmetric (hessian s) ->
            positive_definite n (hessian s) -> 0 < trust_radius s ->
            make_step fuel s = Some (Ret (x', f', g', s2)) ->
            forall b, well_formed n (set_base b (set_xfg x' f' g' s2))).
  { intros fuel s x' f' g' s2 Hxo Hgo Hsq Hsym Hpd Htr Hs b.
    apply make_step_result in Hs.
    destruct Hs as ((Hx1 & _ & Hg1 & Hh1 & _) & [k Hk] & [tmp2 Hx]
                    & _ & _ & [d Hd]).
    assert (Hlx : length x' = n).
    { rewrite Hx. unfold vadd. rewrite map2_length, mv_length, Hxo.
      rewrite (Heigh _ Hsq). apply Nat.min_id. }
    unfold well_formed. simpl. rewrite Hx1, Hg1, Hh1.
    repeat split; auto; try apply Hsq.
    - specialize (Hgrad d x' Hlx). now rewrite Hd in Hgrad.
    - rewrite Hk. assert (0 < 0.5 ^ k) by (apply pow_lt; lra). nra. }
  split.
  - intros fuel b small s' Hx0. unfold BFGSOptimizer.initialize.
    destruct (BaseOptimizer.fun_ dof_fun b _) as [b1 [f0 g0]] eqn:Ef.
    apply fun_result in Ef. destruct Ef as [_ Hd].
    destruct (make_step fuel _) as [[[[[x' f'] g'] s2]|e]|] eqn:Es;
      try discriminate.
    intros [= <-]. eapply Hstep; [..|exact Es]; simpl; auto.
    + specialize (Hgrad (BaseOptimizer.dof b) _ Hx0).
      now rewrite Hd in Hgrad.
    + rewrite Hx0. apply square_identity.
    + apply symmetric_identity.
    + rewrite Hx0. apply identity_positive_definite.
    + lra.
  - intros fuel s s' stop (Hxo & Hgo & Hx & Hg & Hsq & Hsym & Hpd & Htr).
    unfold BFGSOptimizer.propagate.
    assert (Hdx : length (vsub (x s) (x_old s)) = n)
      by (unfold vsub; rewrite map2_length, Hx, Hxo; apply Nat.min_id).
    assert (Hdg : length (vsub (g s) (g_old s)) = n)
      by (unfold vsub; rewrite map2_length, Hg, Hgo; apply Nat.min_id).
    pose proof (update_square n (hessian s) (vsub (x s) (x_old s)) _
                  Hsq Hdg) as Hsq'.
    pose proof (update_symmetric n (hessian s) (vsub (x s) (x_old s)) _
                  Hsq Hsym Hdg) as Hsym'.
    pose proof (update_positive_definite n (hessian s) _ _
                  Hsq Hsym Hpd Hdg Hdx) as Hpd'.
    destruct (BFGSHessianModel.update _ _ _) as [h|e]; [|discriminate].
    simpl in Hsq', Hsym', Hpd'.
    destruct (make_step fuel _) as [[[[[x' f'] g'] s2]|e]|] eqn:Es;
      try discriminate.
    intros [= <- _]. eapply Hstep; [..|exact Es]; simpl; auto.
Qed.

End BFGSOptimizerMore.

(** ** Instances of the further properties *)

Lemma example_eigen_step ridge q :
  1 ^ 2 + ridge ^ 2 <> 0 -> 1 / 2 * 1 / (1 ^ 2 + ridge ^ 2) = q ->
  all_finite (BFGSOptimizer.eigen_step [1/2] [1] ridge) = Some [q].
Proof.
  intros Hd Hq. cbn [BFGSOptimizer.eigen_step map2 all_finite].
  unfold np_div. rewrite (proj2 (Reqb_false _ _) Hd). cbn [all_finite].
  now rewrite Hq.
Qed.

Lemma example_ridge_loop :
  BFGSOptimizer.ridge_loop 2 [1/2] [1] 0.5 0 = Some (Ret ([1/4], 1)).
Proof.
  rewrite (ridge_loop_1_grow 1 (1/2) 1 _ 0 (1/2) 1);
    [| lra | field | rewrite Rabs_right; lra
     | apply grow_ridge_1_zero; [lra | rewrite Rabs_right; lra] ].
  apply ridge_loop_1_stop; [lra | field | rewrite Rabs_right; lra].
Qed.

Lemma ridge_loop_terminates_witness :
  exists fuel r, BFGSOptimizer.ridge_loop fuel [1/2] [1] 1 0 = Some r.
Proof.
  apply ridge_loop_terminates; lra.
Defined.

Lemma accepted_step_energy_witness :
  -1 <= BFGSOptimizer.f_old Example.start /\
  ~ (BFGSOptimizer.trust_radius Example.accepted / 1.2
     < BFGSOptimizer.small_radius Example.start /\
     norm [0] < norm (BFGSOptimizer.g_old Example.start)).
Proof.
  exact (accepted_step_energy unit unit Example.dof_fun Example.eigh 4
           Example.start [1/4] (-1) [0] Example.accepted example_make_step).
Defined.

Lemma ridge_loop_raises_ridge_witness :
  BFGSOptimizer.ridge_loop 2 [1/2] [1] 0.5 0 = Some (Ret ([1/4], 1)) /\
  0 <= 1.
Proof.
  split; [apply example_ridge_loop|].
  apply (ridge_loop_raises_ridge 2 [1/2] [1] 0.5 0 [1/4] 1).
  - lra.
  - apply example_ridge_loop.
Defined.

Lemma step_norm_decreases_with_ridge_witness : norm [1/4] <= norm [1/2].
Proof.
  apply (step_norm_decreases_with_ridge [1/2] [1] 0 1).
  - lra.
  - apply example_eigen_step; [lra | field].
  - apply example_eigen_step; [lra | field].
Defined.

Lemma newton_step_without_ridge_witness :
  BFGSOptimizer.initial_ridge [1] = Ret 0 /\
  BFGSOptimizer.ridge_loop 1 [1/2] [1] 1 0
  = Some (Ret (map2 Rdiv [1/2] [1], 0)).
Proof.
  apply newton_step_without_ridge.
  - constructor; [lra | constructor].
  - discriminate.
  - cbn [map2]. rewrite norm_1, Rabs_right; lra.
Defined.

Lemma make_step_returns_last_evaluation_witness :
  BaseOptimizer.epot (BFGSOptimizer.base Example.accepted) = Some (-1) /\
  exists d, snd (Example.dof_fun d [1/4]) = (-1, [0]).
Proof.
  exact (make_step_returns_last_evaluation unit unit Example.dof_fun
           Example.eigh 4 Example.start [1/4] (-1) [0] Example.accepted
           example_make_step).
Defined.

Lemma energy_never_rises_witness :
  BFGSOptimizer.f Example.initialized
  <= BFGSOptimizer.f_old Example.initialized /\
  BFGSOptimizer.f_old Example.initialized
  = fst (snd (Example.dof_fun (BaseOptimizer.dof Example.base) [0])).
Proof.
  exact (proj2 (energy_never_rises unit unit (fun _ => [0]) Example.dof_fun
                  (fun d => d) (fun _ => false) (fun b => b) (fun b => b)
                  Example.eigh)
           4%nat Example.base 1e-5 Example.initialized example_initialize).
Defined.

Lemma example_eigh_shape h :
  square 1 h -> length (snd (Example.eigh h)) = 1%nat.
Proof.
  intros [Hl Hr]. destruct h as [|row [|]]; try discriminate.
  inversion Hr as [|? ? Hrow _]; subst.
  destruct row as [|a [|]]; try discriminate. reflexivity.
Qed.

Lemma example_gradient_shape (d : unit) x0 :
  length x0 = 1%nat -> length (snd (snd (Example.dof_fun d x0))) = 1%nat.
Proof.
  destruct x0 as [|a [|]]; try discriminate. intros _.
  unfold Example.dof_fun.
  destruct (Rleb (1 / 2) a); [reflexivity|].
  destruct (Rleb a 0); reflexivity.
Qed.

Lemma well_formed_invariant_witness : well_formed 1 Example.initialized.
Proof.
  apply (proj1 (well_formed_invariant unit unit (fun _ => [0])
                  Example.dof_fun (fun d => d) (fun _ => false)
                  (fun b => b) (fun b => b) Example.eigh 1
                  example_eigh_shape example_gradient_shape)
           4%nat Example.base 1e-5 Example.initialized).
  - reflexivity.
  - apply example_initialize.
Defined.

(** ** yaff.log: breaking a message into lines *)

Section LogFacts.

  Import Ascii.

Lemma rfind_spec c s stop pos :
  Log.rfind c s stop = Some pos ->
  (pos < stop)%nat /\ (pos < length s)%nat /\
  exists t, skipn pos s = c :: t.
Proof.
  revert stop pos. induction s as [|a s IH]; intros [|stop] pos; simpl;
    try discriminate.
  destruct (Log.rfind c s stop) as [i|] eqn:Er.
  - intros [= <-]. destruct (IH stop i Er) as (H1 & H2 & t & Ht).
    repeat split; try lia. exists t. exact Ht.
  - destruct (Ascii.eqb a c) eqn:Ea; [|discriminate].
    intros [= <-]. apply Ascii.eqb_eq in Ea. subst.
    repeat split; try lia. now exists s.
Qed.

Lemma lstrip_length s : (length (Log.lstrip s) <= length s)%nat.
Proof.
  induction s as [|a s IH]; simpl; [lia|].
  destruct (Log.is_space a); simpl; lia.
Qed.

Lemma lstrip_nonspace s :
  filter (fun c => negb (Log.is_space c)) (Log.lstrip s)
  = filter (fun c => negb (Log.is_space c)) s.
Proof.
  induction s as [|a s IH]; simpl; auto.
  destruct (Log.is_space a) eqn:Ea; simpl; [exact IH|].
  now rewrite Ea.
Qed.

(** One pass of the loop: the piece that is printed is not longer than
    the width, what is left is shorter than what there was, and nothing
    but whitespace is dropped. *)
Lemma break_step width rest :
  (0 < width)%nat -> (0 < length rest)%nat ->
  let '(current, rest') :=
    if Nat.ltb width (length rest) then
      match Log.rfind " " rest width with
      | None => (firstn width rest, skipn width rest)
      | Some pos => (firstn pos rest, Log.lstrip (skipn pos rest))
      end
    else (rest, []) in
  (length current <= width)%nat /\ (length rest' < length rest)%nat /\
  filter (fun c => negb (Log.is_space c)) (current ++ rest')
  = filter (fun c => negb (Log.is_space c)) rest.
Proof.
  intros Hw Hr. destruct (Nat.ltb_spec width (length rest)) as [Hlt|Hge].
  - destruct (Log.rfind " " rest width) as [pos|] eqn:Er.
    + apply rfind_spec in Er. destruct Er as (Hp & Hl & t & Ht).
      repeat split.
      * rewrite length_firstn. lia.
      * rewrite Ht. simpl.
        pose proof (lstrip_length t) as Hst.
        assert (Hsk : length (skipn pos rest) = S (length t))
          by now rewrite Ht.
        rewrite length_skipn in Hsk.
        destruct (Log.is_space " "); simpl; lia.
      * rewrite filter_app, lstrip_nonspace, <- filter_app.
        now rewrite firstn_skipn.
    + repeat split.
      * rewrite length_firstn. lia.
      * rewrite length_skipn. lia.
      * now rewrite firstn_skipn.
  - repeat split; [lia | simpl; lia | now rewrite app_nil_r].
Qed.

Lemma break_lines_total fuel pfx width lead first rest :
  (0 < width)%nat -> (length rest < fuel)%nat ->
  exists lines, Log.break_lines fuel pfx width lead first rest = Some lines.
Proof.
  intros Hw. revert lead first rest.
  induction fuel as [|fuel IH]; intros lead first rest Hf; [lia|].
  cbn [Log.break_lines].
  destruct (Nat.ltb_spec 0 (length rest)) as [Hr|Hr]; [|eauto].
  pose proof (break_step width rest Hw Hr) as Hs.
  destruct (if Nat.ltb width (length rest) then _ else _) as [current rest'].
  destruct Hs as (_ & Hl & _).
  destruct (IH (if first then repeat " "%char (length lead) else lead)
               false rest') as [lines Hlines]; [lia|].
  rewrite Hlines. eauto.
Qed.

(** X12: the loop of [ScreenLog.__call__] that breaks a message into
    lines terminates for every positive width: a pass for each character
    of the text is enough, and it prints at most as many lines as the
    text has characters. *)
Theorem break_lines_terminates fuel pfx width lead first rest :
  (0 < width)%nat -> (length rest < fuel)%nat ->
  exists lines,
    Log.break_lines fuel pfx width lead first rest = Some lines /\
    (length lines <= length rest)%nat.
Proof.
  intros Hw. revert lead first rest.
  induction fuel as [|fuel IH]; intros lead first rest Hf; [lia|].
  cbn [Log.break_lines].
  destruct (Nat.ltb_spec 0 (length rest)) as [Hr|Hr].
  - pose proof (break_step width rest Hw Hr) as Hs.
    destruct (if Nat.ltb width (length rest) then _ else _)
      as [current rest'].
    destruct Hs as (_ & Hl & _).
    destruct (IH (if first then repeat " "%char (length lead) else lead)
                 false rest') as (lines & Hlines & Hn); [lia|].
    rewrite Hlines. eexists. split; [reflexivity|]. simpl. lia.
  - eexists. split; [reflexivity|]. simpl. lia.
Qed.

Lemma layout_false pfx lead currents :
  Log.layout pfx lead false currents
  = map (fun c => pfx ++ " "%char :: lead ++ c) currents.
Proof. destruct currents; reflexivity. Qed.

Lemma break_lines_pieces pfx width :
  (0 < width)%nat ->
  forall fuel lead first rest lines,
    Log.break_lines fuel pfx width lead first rest = Some lines ->
    exists currents,
      lines = Log.layout pfx lead first currents /\
      Forall (fun c => length c <= width)%nat currents /\
      filter (fun c => negb (Log.is_space c)) (concat currents)
      = filter (fun c => negb (Log.is_space c)) rest.
Proof.
  intros Hw.
  induction fuel as [|fuel IH]; intros lead first rest lines;
    [discriminate|].
  cbn [Log.break_lines].
  destruct (Nat.ltb_spec 0 (length rest)) as [Hr|Hr].
  - pose proof (break_step width rest Hw Hr) as Hs.
    destruct (if Nat.ltb width (length rest) then _ else _)
      as [current rest'].
    destruct Hs as (Hc & _ & Hfilter).
    destruct (Log.break_lines fuel pfx width _ false rest')
      as [lines'|] eqn:El; [|discriminate].
    intros [= <-]. apply IH in El.
    destruct El as (currents & -> & Hall & Hf).
    exists (current :: currents). repeat split.
    + rewrite layout_false. reflexivity.
    + constructor; assumption.
    + simpl. rewrite filter_app, Hf, <- filter_app. exact Hfilter.
  - intros [= <-]. exists []. repeat split; [constructor|].
    destruct rest; [reflexivity | simpl in Hr; lia].
Qed.

(** X13: the lines that the loop prints show the text piece by piece: the
    first piece after the lead and the others after blanks of the same
    width, each piece at most [width] characters long, and the pieces
    hold the characters of the text in their order, with nothing but
    whitespace left out. *)
Theorem break_lines_layout fuel pfx width lead rest lines :
  (0 < width)%nat ->
  Log.break_lines fuel pfx width lead true rest = Some lines ->
  exists currents,
    lines = Log.layout pfx lead true currents /\
    Forall (fun c => length c <= width)%nat currents /\
    filter (fun c => negb (Log.is_space c)) (concat currents)
    = filter (fun c => negb (Log.is_space c)) rest.
Proof.
  intros Hw. now apply break_lines_pieces.
Qed.

Lemma layout_length pfx lead first currents w :
  Forall (fun c => length c <= w)%nat currents ->
  Forall (fun l => length l <= length pfx + 1 + length lead + w)%nat
         (Log.layout pfx lead first currents).
Proof.
  intros Hall. destruct Hall as [|c cs Hc Hcs]; [constructor|].
  cbn [Log.layout]. constructor.
  - rewrite length_app. simpl. rewrite length_app. lia.
  - apply Forall_forall. intros l Hin. apply in_map_iff in Hin.
    destruct Hin as (c' & <- & Hin'). rewrite Forall_forall in Hcs.
    specialize (Hcs c' Hin').
    rewrite length_app. simpl. rewrite length_app.
    destruct first; [rewrite repeat_length|]; lia.
Qed.

(** X14: on an active log, every line that [__call__] adds to the file
    is at most the prefix, a space and 72 characters wide (80 columns for
    the prefixes of 7 characters that [_enter] makes), and the call
    leaves the prefix and the stack of prefixes as they are. *)
Theorem call_lines_fit (print_header : Log.state -> Log.state) fuel st words
        st' :
  Log._active st = true ->
  Log.call print_header fuel st words = Some (Log.Done st') ->
  exists lines,
    Log._file st' = Log._file st ++ lines /\
    Forall (fun l => length l <= length (Log.prefix st) + 1 + Log.width)%nat
           lines /\
    Log.prefix st' = Log.prefix st /\ Log.stack st' = Log.stack st.
Proof.
  intros Ha. unfold Log.call.
  destruct (ScreenLog.do_warning (Log._level st)); [|discriminate].
  rewrite Ha. cbn [negb].
  set (st2 := if (Log.add_newline st && _)%bool then _ else st).
  assert (H2 : Log.prefix st2 = Log.prefix st /\
               Log.stack st2 = Log.stack st /\
               exists l0, Log._file st2 = Log._file st ++ l0 /\
                 Forall (fun l => length l
                                  <= length (Log.prefix st) + 1 + Log.width)%nat
                        l0).
  { unfold st2. destruct (Log.add_newline st && _)%bool; simpl.
    - repeat split. exists [[]]. split; [reflexivity|].
      constructor; [simpl; lia | constructor].
    - repeat split. exists []. split; [now rewrite app_nil_r | constructor]. }
  destruct H2 as (Hp & Hs & l0 & Hf & Hl0).
  destruct (Log.split_lead (Log.join words)) as [lead rest].
  change (Z.of_nat Log.width / 2)%Z with 36%Z.
  change (Z.of_nat Log.width) with 72%Z.
  destruct (Z.ltb_spec (72 - Z.of_nat (length lead)) 36) as [Hlt|Hge];
    [discriminate|].
  destruct (Log.break_lines fuel _ _ lead true rest) as [lines|] eqn:El;
    [|discriminate].
  intros [= <-]. cbn [Log._file Log.prefix Log.stack].
  apply break_lines_pieces in El; [|lia].
  destruct El as (currents & -> & Hall & _).
  exists (l0 ++ Log.layout (Log.prefix st2) lead true currents).
  repeat split; auto.
  - now rewrite Hf, app_assoc.
  - apply Forall_app. split; [exact Hl0|].
    rewrite Hp.
    eapply Forall_impl;
      [|apply (layout_length _ _ _ _ _ Hall)].
    intros l Hl. cbn beta in Hl. unfold Log.width. lia.
Qed.

Lemma exit_after_push st0 l a :
  Log.stack st0 = l ++ [a] ->
  Log._exit st0
  = Log.Done (Log.mk (Log._active st0) (Log._level st0) a
                (Log._last_used_prefix st0) l
                (if Log._active st0 then true else Log.add_newline st0)
                (Log._file st0)).
Proof.
  intros Hs. unfold Log._exit. rewrite Hs.
  destruct (l ++ [a]) eqn:Es; [destruct l; discriminate Es|].
  rewrite <- Es. now rewrite last_last, removelast_last.
Qed.

(** X15: [_enter(prefix)] raises [ValueError] for a prefix of more than 7
    characters; otherwise the new prefix is 7 characters wide, and the
    [_exit()] that follows puts back the prefix and the stack that there
    were, and prints nothing. *)
Theorem enter_exit_round_trip p st :
  ((Log.margin - 1 < length p)%nat ->
   Log._enter p st = Log.Fail Log.ValueError) /\
  ((length p <= Log.margin - 1)%nat ->
   exists st1 st2,
     Log._enter p st = Log.Done st1 /\
     length (Log.prefix st1) = (Log.margin - 1)%nat /\
     Log._exit st1 = Log.Done st2 /\
     Log.prefix st2 = Log.prefix st /\
     Log.stack st2 = Log.stack st /\
     Log._file st2 = Log._file st).
Proof.
  unfold Log._enter. split; intros Hp.
  - now rewrite (proj2 (Nat.ltb_lt _ _) Hp).
  - rewrite (proj2 (Nat.ltb_ge _ _) Hp).
    eexists. eexists. split; [reflexivity|]. split.
    + cbn [Log.prefix]. unfold Log.rjust, Log.upper.
      rewrite length_app, repeat_length, length_map. lia.
    + split; [apply exit_after_push; reflexivity|].
      repeat split.
Qed.

(** X16: [with log.section(prefix)] puts back the prefix and the stack
    when its body has left the stack as it found it, also when the body
    raises, and then the exception of the body is the one raised. *)
Theorem section_restores_prefix p body st :
  (length p <= Log.margin - 1)%nat ->
  (forall st1, Log.stack (fst (body st1)) = Log.stack st1) ->
  Log.prefix (fst (Log.section p body st)) = Log.prefix st /\
  Log.stack (fst (Log.section p body st)) = Log.stack st /\
  exists st1,
    Log._enter p st = Log.Done st1 /\
    snd (Log.section p body st) = snd (body st1).
Proof.
  intros Hp Hbody. unfold Log.section, Log._enter.
  rewrite (proj2 (Nat.ltb_ge _ _) Hp).
  set (st1 := Log.mk _ _ _ _ _ _ _).
  specialize (Hbody st1).
  destruct (body st1) as [st2 raised] eqn:Eb. simpl in Hbody.
  rewrite (exit_after_push st2 (Log.stack st) (Log.prefix st) Hbody).
  split; [reflexivity|]. split; [reflexivity|].
  exists st1. split; [reflexivity|]. now rewrite Eb.
Qed.

Lemma find_repeat c a n : a <> c -> Log.find c (repeat a n) = None.
Proof.
  intros Hne. induction n as [|n IH]; simpl; auto.
  rewrite (proj2 (Ascii.eqb_neq a c) Hne). now rewrite IH.
Qed.

Lemma concat_repeat_singleton (a : ascii) n :
  concat (repeat [a] n) = repeat a n.
Proof. induction n as [|n IH]; simpl; congruence. Qed.

(** X17: at a level of at least [warning], [warn(words)] returns: the lead
    is ["WARNING!! "] whatever the words are, so the lead is never too
    wide, and the words are broken into lines of at most 62
    characters. *)
Theorem warn_returns (print_header : Log.state -> Log.state) fuel st words :
  ScreenLog.do_warning (Log._level st) = true ->
  (length (Log.join words) < fuel)%nat ->
  exists st', Log.warn print_header fuel st words = Some (Log.Done st').
Proof.
  intros Hw Hf. unfold Log.warn, Log.call. rewrite Hw. cbn [negb].
  set (st2 := if (Log.add_newline _ && _)%bool then _ else _).
  cbn [Log.join]. unfold Log.split_lead. cbn [app Log.find].
  cbn [Ascii.eqb Bool.eqb]. cbn [firstn skipn Nat.add app length].
  change (Z.of_nat Log.width / 2)%Z with 36%Z.
  change (Z.of_nat Log.width - Z.of_nat 10)%Z with 62%Z.
  cbn [Z.ltb Z.compare Pos.compare Pos.compare_cont].
  destruct (break_lines_total fuel (Log.prefix st2) (Z.to_nat 62)
              ["W"; "A"; "R"; "N"; "I"; "N"; "G"; "!"; "!"; " "]%char
              true (Log.join words)) as [lines Hl]; [simpl; lia | exact Hf|].
  rewrite Hl. eauto.
Qed.

(** X18: on an active log that owes no blank line, [hline(c)] for a
    character [c] other than ['&'] prints one line: the prefix, a space
    and 72 times [c]. *)
Theorem hline_prints_one_line (print_header : Log.state -> Log.state) k st c :
  ScreenLog.do_warning (Log._level st) = true ->
  Log._active st = true -> Log.add_newline st = false ->
  c <> "&"%char ->
  exists st',
    Log.hline print_header (S (S k)) st [c] = Some (Log.Done st') /\
    Log._file st'
    = Log._file st ++ [Log.prefix st ++ " "%char :: repeat c Log.width].
Proof.
  intros Hw Ha Hn Hc. unfold Log.hline, Log.call.
  rewrite Hw, Ha. cbn [negb]. rewrite Hn. cbn [andb Log.join].
  rewrite concat_repeat_singleton. unfold Log.split_lead.
  rewrite find_repeat by exact Hc.
  change (Z.of_nat Log.width / 2)%Z with 36%Z.
  change (Z.of_nat Log.width - Z.of_nat (length (@nil ascii)))%Z with 72%Z.
  cbn [Z.ltb Z.compare Pos.compare Pos.compare_cont].
  change (Z.to_nat 72) with Log.width.
  cbn [Log.break_lines]. rewrite repeat_length.
  change (Nat.ltb 0 Log.width) with true.
  rewrite Nat.ltb_irrefl. cbn [length Nat.ltb Nat.leb app].
  eexists. split; reflexivity.
Qed.

End LogFacts.

Section LogInstances.

  Import Ascii.

Lemma break_lines_terminates_witness :
  exists lines,
    Log.break_lines 9 [] 5 [] true LogExample.text = Some lines /\
    (length lines <= length LogExample.text)%nat.
Proof.
  apply break_lines_terminates; simpl; lia.
Defined.

Lemma example_break_lines :
  Log.break_lines 9 [] 5 [] true LogExample.text
  = Some [[" "; "a"; "b"]; [" "; "c"; "d"; " "; "e"; "f"]]%char.
Proof. reflexivity. Qed.

Lemma break_lines_layout_witness :
  exists currents,
    [[" "; "a"; "b"]; [" "; "c"; "d"; " "; "e"; "f"]]%char
    = Log.layout [] [] true currents /\
    Forall (fun c => length c <= 5)%nat currents /\
    filter (fun c => negb (Log.is_space c)) (concat currents)
    = filter (fun c => negb (Log.is_space c)) LogExample.text.
Proof.
  apply (break_lines_layout 9 [] 5 [] LogExample.text).
  - lia.
  - apply example_break_lines.
Defined.

Lemma example_call :
  Log.call (fun st => st) 9 LogExample.active [LogExample.text]
  = Some (Log.Done LogExample.written).
Proof. reflexivity. Qed.

Lemma call_lines_fit_witness :
  exists lines,
    Log._file LogExample.written = Log._file LogExample.active ++ lines /\
    Forall (fun l => length l
                     <= length (Log.prefix LogExample.active) + 1 + Log.width)%nat
           lines /\
    Log.prefix LogExample.written = Log.prefix LogExample.active /\
    Log.stack LogExample.written = Log.stack LogExample.active.
Proof.
  apply (call_lines_fit (fun st => st) 9 LogExample.active
           [LogExample.text] LogExample.written).
  - reflexivity.
  - apply example_call.
Defined.

Lemma enter_exit_round_trip_witness :
  exists st1 st2,
    Log._enter ["e"; "n"; "v"]%char LogExample.active = Log.Done st1 /\
    length (Log.prefix st1) = (Log.margin - 1)%nat /\
    Log._exit st1 = Log.Done st2 /\
    Log.prefix st2 = Log.prefix LogExample.active /\
    Log.stack st2 = Log.stack LogExample.active /\
    Log._file st2 = Log._file LogExample.active.
Proof.
  apply (proj2 (enter_exit_round_trip ["e"; "n"; "v"]%char LogExample.active)).
  simpl. lia.
Defined.

Lemma section_restores_prefix_witness :
  Log.prefix (fst (Log.section ["e"; "n"; "v"]%char
                     (fun st => (Log.blank st, Some Log.RuntimeError))
                     LogExample.active))
  = Log.prefix LogExample.active.
Proof.
  apply (section_restores_prefix ["e"; "n"; "v"]%char
           (fun st => (Log.blank st, Some Log.RuntimeError))
           LogExample.active).
  - simpl. lia.
  - reflexivity.
Defined.

Lemma warn_returns_witness :
  exists st',
    Log.warn (fun st => st) 9 LogExample.active [LogExample.text]
    = Some (Log.Done st').
Proof.
  apply warn_returns; [reflexivity | simpl; lia].
Defined.

Lemma hline_prints_one_line_witness :
  exists st',
    Log.hline (fun st => st) 2 LogExample.active ["~"%char]
    = Some (Log.Done st') /\
    Log._file st'
    = Log._file LogExample.active
      ++ [Log.prefix LogExample.active ++ " "%char :: repeat "~"%char Log.width].
Proof.
  apply hline_prints_one_line; try reflexivity. discriminate.
Defined.

End LogInstances.

(** ** yaff.pes.scaling.iter_paths *)

Lemma existsb_eqb_In a l : existsb (Nat.eqb a) l = true <-> In a l.
Proof.
  rewrite existsb_exists. split.
  - intros (b & Hin & Hb). apply Nat.eqb_eq in Hb. now subst.
  - intros Hin. exists a. split; [exact Hin | apply Nat.eqb_refl].
Qed.

Lemma last_cons_default {A : Type} (a : A) l d d' :
  last (a :: l) d = last (a :: l) d'.
Proof.
  revert a. induction l as [|b l IH]; intros a; [reflexivity|].
  change (last (a :: b :: l) d) with (last (b :: l) d).
  change (last (a :: b :: l) d') with (last (b :: l) d'). apply IH.
Qed.

Lemma iter_paths_S neighs1 ib ie n :
  Scaling.iter_paths neighs1 ib ie (S (S n))
  = flat_map
      (fun i1 =>
         map (cons ib)
             (filter (fun path => negb (existsb (Nat.eqb ib) path))
                     (Scaling.iter_paths neighs1 i1 ie (S n))))
      (neighs1 ib).
Proof. reflexivity. Qed.

Lemma iter_paths_sound neighs1 nbond :
  (forall i, ~ In i (neighs1 i)) ->
  forall ib ie path,
    In path (Scaling.iter_paths neighs1 ib ie nbond) ->
    Scaling.simple_path neighs1 ib ie nbond path.
Proof.
  intros Hirr. destruct nbond as [|n]; [intros ib ie path []|].
  induction n as [|n IH]; intros ib ie path.
  - cbn [Scaling.iter_paths].
    destruct (existsb (Nat.eqb ie) (neighs1 ib)) eqn:Ee; [|intros []].
    apply existsb_eqb_In in Ee. intros [<-|[]].
    repeat split; simpl; auto.
    constructor; [|constructor; [intros [] | constructor]].
    intros [->|[]]. now apply (Hirr ib).
  - rewrite iter_paths_S. intros Hin. apply in_flat_map in Hin.
    destruct Hin as (i1 & Hi1 & Hin). apply in_map_iff in Hin.
    destruct Hin as (p & <- & Hp). apply filter_In in Hp.
    destruct Hp as [Hp Hnot]. apply IH in Hp.
    destruct Hp as (Hl & Hh & Hla & Hb & Hnd).
    assert (Hni : ~ In ib p).
    { intros Hi. apply existsb_eqb_In in Hi. rewrite Hi in Hnot.
      discriminate. }
    destruct p as [|a p]; [discriminate|]. injection Hh as ->.
    split; [|split; [|split; [|split]]].
    + simpl in *. lia.
    + reflexivity.
    + change (last (ib :: i1 :: p) ib) with (last (i1 :: p) ib).
      now rewrite (last_cons_default i1 p ib i1).
    + simpl. split; [exact Hi1 | exact Hb].
    + constructor; assumption.
Qed.

Lemma iter_paths_complete neighs1 nbond :
  forall ib ie path,
    Scaling.simple_path neighs1 ib ie (S nbond) path ->
    In path (Scaling.iter_paths neighs1 ib ie (S nbond)).
Proof.
  induction nbond as [|n IH]; intros ib ie path (Hl & Hh & Hla & Hb & Hnd).
  - destruct path as [|a [|b [|c path]]]; try discriminate.
    injection Hh as ->. simpl in Hla, Hb. subst b.
    cbn [Scaling.iter_paths].
    rewrite (proj2 (existsb_eqb_In ie (neighs1 ib))) by apply Hb.
    now left.
  - destruct path as [|a [|i1 rest]]; try discriminate.
    injection Hh as ->. destruct Hb as [Hi1 Hb].
    inversion Hnd as [|? ? Hni Hnd']; subst.
    rewrite iter_paths_S. apply in_flat_map. exists i1. split; [exact Hi1|].
    apply in_map. apply filter_In. split.
    + apply IH. split; [|split; [|split; [|split]]].
      * simpl in Hl |- *. lia.
      * reflexivity.
      * change (last (ib :: i1 :: rest) ib) with (last (i1 :: rest) ib).
        apply last_cons_default.
      * exact Hb.
      * exact Hnd'.
    + destruct (existsb (Nat.eqb ib) (i1 :: rest)) eqn:Ee; [|reflexivity].
      apply existsb_eqb_In in Ee. contradiction.
Qed.

(** X19: over bonds that join different atoms, [iter_paths(system, ib,
    ie, nbond)] with [nbond >= 1] yields exactly the paths of [nbond]
    bonds from [ib] to [ie] that visit no atom twice. *)
Theorem iter_paths_simple_paths neighs1 ib ie nbond path :
  (forall i, ~ In i (neighs1 i)) ->
  In path (Scaling.iter_paths neighs1 ib ie (S nbond))
  <-> Scaling.simple_path neighs1 ib ie (S nbond) path.
Proof.
  intros Hirr. split.
  - now apply iter_paths_sound.
  - apply iter_paths_complete.
Qed.

Lemma iter_paths_head neighs1 nbond :
  forall ib ie path,
    In path (Scaling.iter_paths neighs1 ib ie nbond) ->
    hd_error path = Some ib.
Proof.
  destruct nbond as [|n]; [intros ib ie path []|].
  destruct n as [|n]; intros ib ie path.
  - cbn [Scaling.iter_paths].
    destruct (existsb _ _); [|intros []]. now intros [<-|[]].
  - rewrite iter_paths_S. intros Hin. apply in_flat_map in Hin.
    destruct Hin as (i1 & _ & Hin). apply in_map_iff in Hin.
    now destruct Hin as (p & <- & _).
Qed.

Lemma NoDup_flat_map {A B : Type} (f : A -> list B) l :
  NoDup l ->
  (forall a, In a l -> NoDup (f a)) ->
  (forall a a' b, In a l -> In a' l -> In b (f a) -> In b (f a') -> a = a') ->
  NoDup (flat_map f l).
Proof.
  induction 1 as [|a l Hni Hnd IH]; intros Hf Hdis; simpl; [constructor|].
  apply NoDup_app.
  - apply Hf. now left.
  - apply IH.
    + intros a' Ha'. apply Hf. now right.
    + intros a1 a2 b H1 H2. apply Hdis; now right.
  - intros b Hb Hb'. apply in_flat_map in Hb'.
    destruct Hb' as (a' & Ha' & Hb'). apply Hni.
    rewrite (Hdis a a' b); auto. now left. now right.
Qed.

Lemma NoDup_map_cons {A : Type} (a : A) (l : list (list A)) :
  NoDup l -> NoDup (map (cons a) l).
Proof.
  induction 1 as [|p l Hni Hnd IH]; simpl; constructor; auto.
  intros Hin. apply in_map_iff in Hin.
  destruct Hin as (q & [= ->] & Hq). contradiction.
Qed.

(** X20: when no atom is listed twice among the neighbours of an atom,
    [iter_paths] with [nbond >= 1] yields no path twice. *)
Theorem iter_paths_yields_once neighs1 ib ie nbond :
  (forall i, NoDup (neighs1 i)) ->
  NoDup (Scaling.iter_paths neighs1 ib ie (S nbond)).
Proof.
  intros Hset. revert ib. induction nbond as [|n IH]; intros ib.
  - cbn [Scaling.iter_paths].
    destruct (existsb _ _); [|constructor].
    constructor; [intros [] | constructor].
  - rewrite iter_paths_S. apply NoDup_flat_map.
    + apply Hset.
    + intros i1 _. apply NoDup_map_cons. apply NoDup_filter. apply IH.
    + intros i1 i1' path _ _ H1 H2.
      apply in_map_iff in H1. destruct H1 as (p & <- & Hp).
      apply in_map_iff in H2. destruct H2 as (q & [= <-] & Hq).
      apply filter_In in Hp. destruct Hp as [Hp _].
      apply filter_In in Hq. destruct Hq as [Hq _].
      apply iter_paths_head in Hp, Hq. congruence.
Qed.

Lemma iter_paths_simple_paths_witness :
  In [0; 1; 2]%nat
     (Scaling.iter_paths
        (fun i => match i with 0 => [1] | 1 => [0; 2] | _ => [1] end)%nat
        0 2 2)
  <-> Scaling.simple_path
        (fun i => match i with 0 => [1] | 1 => [0; 2] | _ => [1] end)%nat
        0 2 2 [0; 1; 2]%nat.
Proof.
  apply iter_paths_simple_paths.
  intros [|[|i]]; simpl; intros H; repeat destruct H as [H|H];
    try discriminate; auto.
Defined.

Lemma iter_paths_yields_once_witness :
  NoDup (Scaling.iter_paths
           (fun i => match i with 0 => [1] | 1 => [0; 2] | _ => [1] end)%nat
           0 2 2).
Proof.
  apply (iter_paths_yields_once _ 0 2 1).
  intros [|[|i]]; repeat constructor; simpl; intuition discriminate.
Defined.

(** ** yaff.pes.scaling.Scalings *)

Lemma insert_In x y l : In y (Scaling.insert x l) <-> y = x \/ In y l.
Proof.
  induction l as [|z l IH]; simpl.
  - intuition.
  - destruct (Scaling.entry_ltb z x); simpl; [rewrite IH|]; intuition.
Qed.

Lemma sort_In y l : In y (Scaling.sort l) <-> In y l.
Proof.
  induction l as [|x l IH]; simpl; [tauto|].
  rewrite insert_In, IH. intuition.
Qed.

Lemma scaled_In neighs scale nbond i0 a b s n :
  In (a, b, s, n) (Scaling.scaled neighs scale nbond i0)
  <-> a = i0 /\ n = nbond /\ s = scale /\ scale < 1 /\
      (b < a)%nat /\ In b (neighs a).
Proof.
  unfold Scaling.scaled. destruct (Rltb scale 1) eqn:Es.
  - apply Rltb_true in Es. rewrite in_map_iff. split.
    + intros (i & [= <- <- <- <-] & Hi). apply filter_In in Hi.
      destruct Hi as [Hi Hlt]. apply Nat.ltb_lt in Hlt. auto 8.
    + intros (-> & -> & -> & _ & Hlt & Hb). exists b. split; [reflexivity|].
      apply filter_In. split; [exact Hb | now apply Nat.ltb_lt].
  - apply Rltb_false in Es. split; [intros [] | intros (_ & _ & _ & H & _); lra].
Qed.

(** X21: the table [stab] of a [Scalings] object holds exactly the scaled
    pairs: [(a, b, scale, nbond)] is in it if and only if [b < a], [b] is
    a neighbour of [a] over [nbond] bonds (1, 2 or 3), and [scale] is the
    scale given for [nbond] and is below 1; no entry has a scale outside
    [0, 1). *)
Theorem stab_holds_scaled_pairs natom neighs1 neighs2 neighs3 check_mic
        s1 s2 s3 obj :
  Scaling.__init__ natom neighs1 neighs2 neighs3 check_mic s1 s2 s3
  = Scaling.Done obj ->
  forall a b s n,
    In (a, b, s, n) (Scaling.stab obj)
    <-> (b < a < natom)%nat /\ 0 <= s < 1 /\
        ((n = 1%nat /\ s = s1 /\ In b (neighs1 a))
         \/ (n = 2%nat /\ s = s2 /\ In b (neighs2 a))
         \/ (n = 3%nat /\ s = s3 /\ In b (neighs3 a))).
Proof.
  unfold Scaling.__init__.
  destruct (Rltb s1 0) eqn:E1; [discriminate|].
  destruct (Rltb 1 s1) eqn:E1'; [discriminate|].
  destruct (Rltb s2 0) eqn:E2; [discriminate|].
  destruct (Rltb 1 s2) eqn:E2'; [discriminate|].
  destruct (Rltb s3 0) eqn:E3; [discriminate|].
  destruct (Rltb 1 s3) eqn:E3'; [discriminate|].
  cbn [orb]. cbv zeta. destruct (check_mic _); [discriminate|].
  intros [= <-] a b s n. cbn [Scaling.stab].
  apply Rltb_false in E1, E2, E3.
  rewrite sort_In, in_flat_map. split.
  - intros (i0 & Hi0 & Hin). apply in_seq in Hi0.
    rewrite !in_app_iff, !scaled_In in Hin.
    destruct Hin as [H|[H|H]]; destruct H as (-> & -> & -> & Hs & Hlt & Hb);
      (split; [lia|]); (split; [lra|]); auto 8.
  - intros (Hlt & Hs & H). exists a. split; [apply in_seq; lia|].
    rewrite !in_app_iff, !scaled_In.
    destruct H as [(-> & -> & Hb)|[(-> & -> & Hb)|(-> & -> & Hb)]].
    + left. repeat split; auto; lra || lia.
    + right; left. repeat split; auto; lra || lia.
    + right; right. repeat split; auto; lra || lia.
Qed.

Lemma stab_holds_scaled_pairs_witness :
  In (1%nat, 0%nat, 0, 1%nat)
     (Scaling.stab
        (Scaling.mkScalings 0 0 1
           (Scaling.sort
              (flat_map
                 (fun i0 =>
                    Scaling.scaled
                      (fun i => match i with 0 => [1] | 1 => [0; 2] | _ => [1]
                                end)%nat 0 1 i0
                    ++ Scaling.scaled (fun _ => []) 0 2 i0
                    ++ Scaling.scaled (fun _ => []) 1 3 i0)
                 (seq 0 3))))).
Proof.
  apply (stab_holds_scaled_pairs 3
           (fun i => match i with 0 => [1] | 1 => [0; 2] | _ => [1] end)%nat
           (fun _ => []) (fun _ => []) (fun _ => false) 0 0 1).
  - unfold Scaling.__init__.
    replace (Rltb 0 0) with false by (symmetry; apply Rltb_false; lra).
    replace (Rltb 1 0) with false by (symmetry; apply Rltb_false; lra).
    replace (Rltb 1 1) with false by (symmetry; apply Rltb_false; lra).
    reflexivity.
  - split; [lia|]. split; [lra|]. left. simpl. auto.
Defined.

(** ** yaff.log: the level of the log *)

(** X22: after a [set_level(level)] that returns, a message to the log
    raises [RuntimeError] if and only if the level that was set is
    [silent]; at every other level that [set_level] accepts the log takes
    the message (or refuses it for another reason). *)
Theorem silent_log_refuses_messages (print_header : Log.state -> Log.state)
        fuel level st st' words :
  Log.set_level level st = Log.Done st' ->
  Log.call print_header fuel st' words = Some (Log.Fail Log.RuntimeError)
  <-> level = Z.of_nat ScreenLog.silent.
Proof.
  unfold Log.set_level.
  destruct (Z.ltb_spec level (Z.of_nat ScreenLog.silent)) as [Hlo|Hlo];
    [discriminate|].
  destruct (level >? Z.of_nat ScreenLog.debug)%Z; [discriminate|].
  cbn [orb]. intros [= <-]. unfold Log.call. cbn [Log._level].
  unfold ScreenLog.do_warning, ScreenLog.warning, ScreenLog.silent in *.
  destruct (Nat.leb_spec 1 (Z.to_nat level)) as [Hw|Hw]; cbn [negb].
  - split; [|simpl in Hlo |- *; lia].
    destruct (Log.split_lead _) as [lead rest].
    destruct (_ <? _)%Z; [discriminate|].
    destruct (Log.break_lines _ _ _ _ _ _); discriminate.
  - split; [intros _; simpl in Hlo |- *; lia | reflexivity].
Qed.

Lemma silent_log_refuses_messages_witness :
  Log.call (fun st => st) 1
           (Log.mk true 0 (repeat Ascii.Space 7) None [] false [])
           [[]]
  = Some (Log.Fail Log.RuntimeError)
  <-> 0%Z = Z.of_nat ScreenLog.silent.
Proof.
  apply (silent_log_refuses_messages (fun st => st) 1 0 LogExample.active).
  reflexivity.
Defined.
